(** * Library synchronisation engine: a shallow embedding

    The development follows the Go sources package by package:
    - [slice]       chunking helpers used by the scanner and the repository,
    - [model]       roles, artists, participations, media files, libraries,
    - [metadata]    mapping raw tags to participations,
    - [storagetest] and [local]: the two [ReadTags] implementations,
    - [scanner2]    the folder diff and the batched tag extraction,
    - [persistence] the media file repository queries.

    Part I holds the definitions, Part II the lemmas and theorems. *)

From Stdlib Require Import ZArith Lia.
From stdpp Require Import base option list gmap strings sorting pretty.

Set Warnings "-clear-no-such-hyp".


(** * Part I: definitions *)

(** ** Go vocabulary shared by all packages *)

(** A [time.Time] instant, as a count of nanoseconds; [t.After(u)] holds
    when [t] is strictly later than [u]. *)
Definition Time : Type := Z.

Definition After (t u : Time) : bool := bool_decide (u < t)%Z.

(** A Go [error] value.  Functions returning [(T, error)] return a [result]. *)
Inductive error : Type := mkError (msg : string).

Inductive result (A : Type) : Type :=
| Ok (a : A)
| Err (e : error).
Arguments Ok {A} a.
Arguments Err {A} e.

Definition isErr {A} (r : result A) : bool :=
  match r with Ok _ => false | Err _ => true end.

#[global] Instance error_eq_dec : EqDecision error.
Proof. solve_decision. Defined.

(** Log records emitted through the [log] package. *)
Inductive LogLevel : Type := LevelError | LevelWarn | LevelDebug.

Record LogEntry : Type := mkLog { level : LogLevel; message : string }.

(** ** Package [slice] *)
Module slice.

(** Modelled from the spec: [utils/slice.BreakUp] is not among the sources.
    The spec has the list "partitioned into fixed-size batches"; the helper
    cuts [items] into consecutive chunks of [chunkSize] elements, the last
    one possibly shorter.  [fuel] bounds the number of chunks; the chunk size
    is a positive constant at every call site. *)
Fixpoint BreakUpFuel {A} (fuel chunkSize : nat) (items : list A) : list (list A) :=
  match fuel with
  | O => []
  | S fuel' =>
      match items with
      | [] => []
      | _ => take chunkSize items :: BreakUpFuel fuel' chunkSize (drop chunkSize items)
      end
  end.

Definition BreakUp {A} (chunkSize : nat) (items : list A) : list (list A) :=
  BreakUpFuel (length items) chunkSize items.

(** The callback of [RangeByChunks] closes over mutable state (a database
    handle, the slices it appends to): it is a state transformer that may
    return an error, and the first error stops the iteration. *)
Fixpoint rangeChunks {A S} (cb : S → list A → S * option error)
    (s : S) (chunks : list (list A)) : S * option error :=
  match chunks with
  | [] => (s, None)
  | chunk :: rest =>
      match cb s chunk with
      | (s', Some err) => (s', Some err)
      | (s', None) => rangeChunks cb s' rest
      end
  end.

(** Modelled from the spec: [utils/slice.RangeByChunks] is not among the
    sources; it calls [cb] on each chunk of [BreakUp] in order and returns
    the first error. *)
Definition RangeByChunks {A S} (items : list A) (chunkSize : nat)
    (cb : S → list A → S * option error) (s : S) : S * option error :=
  rangeChunks cb s (BreakUp chunkSize items).

(** Modelled from the spec: [utils/slice.ToMap] is not among the sources; it
    stores every element under the key computed for it, a later element
    replacing an earlier one with the same key ("rows keyed by path"). *)
Definition ToMap {A K V} `{Countable K} (items : list A) (kv : A → K * V) : gmap K V :=
  foldl (λ m x, <[(kv x).1 := (kv x).2]> m) ∅ items.

End slice.

(** ** Package [model] *)
Module model.

Record Role : Type := mkRole { role : string }.

#[global] Instance Role_eq_dec : EqDecision Role.
Proof. solve_decision. Defined.

#[global] Instance Role_countable : Countable Role.
Proof. apply (inj_countable' role mkRole). by intros []. Defined.

Definition RoleInvalid := mkRole "invalid".
Definition RoleArtist := mkRole "artist".
Definition RoleAlbumArtist := mkRole "album_artist".
Definition RoleComposer := mkRole "composer".
Definition RoleConductor := mkRole "conductor".
Definition RoleLyricist := mkRole "lyricist".
Definition RoleArranger := mkRole "arranger".
Definition RoleProducer := mkRole "producer".
Definition RoleDirector := mkRole "director".
Definition RoleEngineer := mkRole "engineer".
Definition RoleMixer := mkRole "mixer".
Definition RoleRemixer := mkRole "remixer".
Definition RoleDJMixer := mkRole "djmixer".
Definition RolePerformer := mkRole "performer".

Definition allRoles : gmap string Role :=
  list_to_map ((λ r, (role r, r)) <$>
    [RoleArtist; RoleAlbumArtist; RoleComposer; RoleConductor; RoleLyricist;
     RoleArranger; RoleProducer; RoleDirector; RoleEngineer; RoleMixer;
     RoleRemixer; RoleDJMixer; RolePerformer]).

Definition RoleFromString (s : string) : Role :=
  match allRoles !! s with
  | Some r => r
  | None => RoleInvalid
  end.

(** The fields of [model.Artist] that the mapper fills in. *)
Record Artist : Type := mkArtist {
  ID : string;
  Name : string;
  OrderArtistName : string;
  SortArtistName : string;
  MbzArtistID : string;
}.

#[global] Instance Artist_eq_dec : EqDecision Artist.
Proof. solve_decision. Defined.

#[global] Instance Artist_inhabited : Inhabited Artist :=
  populate (mkArtist "" "" "" "" "").

(** [type Participations map[Role][]Artist], an allocated map.  A role that
    was never written is absent; reading it yields the nil slice. *)
Abbreviation Participations := (gmap Role (list Artist)).

Definition artistIDs (artists : list Artist) : gset string :=
  list_to_set (ID <$> artists).

(** One round of the second loop of [Add]: an artist whose identifier was
    seen is skipped, another one is recorded and appended to [p[role]]. *)
Definition addArtist (r : Role) (st : gset string * Participations) (artist : Artist)
    : gset string * Participations :=
  if decide (ID artist ∈ st.1) then st
  else ({[ID artist]} ∪ st.1, <[r := (st.2 !!! r) ++ [artist]]> st.2).

(** [func (p Participations) Add(role Role, artists ...Artist)] *)
Definition Add (r : Role) (artists : list Artist) (p : Participations) : Participations :=
  (foldl (addArtist r) (artistIDs (p !!! r), p) artists).2.

(** [func (p Participations) First(role Role) Artist] *)
Definition First (r : Role) (p : Participations) : Artist :=
  match p !! r with
  | Some (a :: _) => a
  | _ => mkArtist "" "" "" "" ""
  end.

(** The body of [Merge] for a given visiting order of [other]. *)
Definition mergeIn (visits : list (Role * list Artist)) (p : Participations) : Participations :=
  foldl (λ q ra, Add ra.1 ra.2 q) p visits.

(** [func (p *Participations) Merge(other Participations)].  Go visits the
    entries of [other] in an unspecified order; [map_to_list] is one such
    order, and Part II shows that the artists [mergeIn] leaves under a role
    do not depend on it. *)
Definition Merge (p other : Participations) : Participations :=
  mergeIn (map_to_list other) p.

(** The columns of [media_file] that the scanner and the repository use. *)
Record MediaFile : Type := mkMediaFile {
  mfID : string;
  PID : string;
  LibraryID : Z;
  FolderID : string;
  Path : string;
  Title : string;
  Missing : bool;
  CreatedAt : Time;
  UpdatedAt : Time;
}.

#[global] Instance MediaFile_eq_dec : EqDecision MediaFile.
Proof. solve_decision. Defined.

Record Library : Type := mkLibrary {
  libID : Z;
  libName : string;
  libPath : string;
  LastScanStartedAt : Time;
}.

Record Tag : Type := mkTag { tagID : string; tagName : string; tagValue : string }.

Record Album : Type := mkAlbum { albumID : string; albumName : string }.

End model.

(** ** Package [metadata] *)
Module metadata.
Import model.

(** Modelled from the spec: the [TagName] constants are declared outside the
    sources.  They are the "role-specific tag fields" the mapper reads;
    [NoTag] is the zero value that an [artistInfo] literal leaves in a field
    it does not set. *)
Inductive TagName : Type :=
| NoTag
| TrackArtist | TrackArtists | TrackArtistSort | TrackArtistsSort | MusicBrainzArtistID
| AlbumArtist | AlbumArtists | AlbumArtistSort | AlbumArtistsSort | MusicBrainzAlbumArtistID
| Composer | ComposerSort | Conductor | Lyricist | Arranger | Director
| Producer | Engineer | Mixer | Remixer | DJMixer.

#[global] Instance TagName_eq_dec : EqDecision TagName.
Proof. solve_decision. Defined.

(** File details that the extractor reports next to the tags.  The fields
    are the methods of the Go interface; [BirthTime] is [None] where the
    method panics instead of returning a time. *)
Record FileInfo : Type := mkFileInfo {
  fiName : string;
  fiSize : Z;
  ModTime : Time;
  BirthTime : option Time;
}.

Record AudioProperties : Type := mkAudioProperties {
  Duration : Z;
  BitRate : Z;
  BitDepth : Z;
  SampleRate : Z;
  Channels : Z;
}.

(** [metadata.Info] ([tag.Properties] in the local storage): what [ReadTags]
    returns for one path. *)
Record Info : Type := mkInfo {
  Tags : gmap string (list string);
  audioProps : AudioProperties;
  HasPicture : bool;
  fileInfo : option FileInfo;
}.

(** Modelled from the spec: the [Metadata] struct and its accessor [Strings]
    are declared outside the sources.  A value carries the file path it was
    built from and the "raw tag data": for each tag name the values present,
    none when the tag is absent. *)
Record Metadata : Type := mkMetadata {
  filePath : string;
  Strings : TagName → list string;
}.

Record artistInfo : Type := mkArtistInfo {
  sort : TagName;
  mbid : TagName;
  name : TagName;
}.

Section mapping.

(** [consts.UnknownArtist], [Metadata.artistID] and
    [str.SanitizeFieldForSortingNoArticle] are defined outside the sources. *)
Variable UnknownArtist : string.
Variable artistID : Metadata → string → string.
Variable SanitizeFieldForSortingNoArticle : string → string.

(** [func (md Metadata) getTags(tagNames ...TagName) []string] *)
Fixpoint getTags (md : Metadata) (tagNames : list TagName) : list string :=
  match tagNames with
  | [] => []
  | tagName :: rest =>
      let values := Strings md tagName in
      if bool_decide (0 < length values) then values else getTags md rest
  end.

(** [func (md Metadata) parseArtist(names, sorts, mbids []string) []model.Artist] *)
Definition parseArtist (md : Metadata) (names sorts mbids : list string) : list Artist :=
  imap (λ i nm,
          {| ID := artistID md nm;
             Name := nm;
             OrderArtistName := SanitizeFieldForSortingNoArticle nm;
             SortArtistName := default "" (sorts !! i);
             MbzArtistID := default "" (mbids !! i) |}) names.

(** [func (md Metadata) parseArtists(name, names, sort, sorts, mbid TagName) []model.Artist] *)
Definition parseArtists (md : Metadata) (name names sort sorts mbid : TagName) : list Artist :=
  let nameValues := getTags md [names; name] in
  let sortValues := getTags md [sorts; sort] in
  let mbids := Strings md mbid in
  let nameValues :=
    if bool_decide (length nameValues = 0) then [UnknownArtist] else nameValues in
  parseArtist md nameValues sortValues mbids.

(** The literal inside [roleMappings]; a Go map, listed in source order. *)
Definition roleMappings : list (Role * artistInfo) :=
  [ (RoleComposer, mkArtistInfo ComposerSort NoTag Composer);
    (RoleConductor, mkArtistInfo NoTag NoTag Conductor);
    (RoleLyricist, mkArtistInfo NoTag NoTag Lyricist);
    (RoleArranger, mkArtistInfo NoTag NoTag Arranger);
    (RoleDirector, mkArtistInfo NoTag NoTag Director);
    (RoleProducer, mkArtistInfo NoTag NoTag Producer);
    (RoleEngineer, mkArtistInfo NoTag NoTag Engineer);
    (RoleMixer, mkArtistInfo NoTag NoTag Mixer);
    (RoleRemixer, mkArtistInfo NoTag NoTag Remixer);
    (RoleDJMixer, mkArtistInfo NoTag NoTag DJMixer) ].

(** [for _, a := range artists { participations.Add(a, role) }]: the artists
    are added to the role one call at a time. *)
Definition addEach (r : Role) (artists : list Artist) (p : Participations) : Participations :=
  foldl (λ q a, Add r [a] q) p artists.

(** The last loop of [mapParticipations], for a visiting order of the role
    table. *)
Definition mapRoles (md : Metadata) (visits : list (Role * artistInfo))
    (p : Participations) : Participations :=
  foldl (λ q ri,
           let names := getTags md [name ri.2] in
           let sorts := getTags md [sort ri.2] in
           let mbids := Strings md (mbid ri.2) in
           addEach ri.1 (parseArtist md names sorts mbids) q) p visits.

(** [func (md Metadata) mapParticipations() model.Participations] *)
Definition mapParticipations (md : Metadata) : Participations :=
  let participations : Participations := ∅ in
  let artists :=
    parseArtists md TrackArtist TrackArtists TrackArtistSort TrackArtistsSort
      MusicBrainzArtistID in
  let participations := addEach RoleArtist artists participations in
  let albumArtists :=
    parseArtists md AlbumArtist AlbumArtists AlbumArtistSort AlbumArtistsSort
      MusicBrainzAlbumArtistID in
  let albumArtists :=
    match albumArtists with
    | [a] => if bool_decide (Name a = UnknownArtist) then artists else albumArtists
    | _ => albumArtists
    end in
  let participations := addEach RoleAlbumArtist albumArtists participations in
  mapRoles md roleMappings participations.

End mapping.
End metadata.

(** ** Package [storagetest]: the in-memory file system of the tests *)
Module storagetest.
Import metadata.

(** [fstest.MapFile]: contents, directory bit of the mode, modification time. *)
Record MapFile : Type := mkMapFile {
  Data : string;
  IsDir : bool;
  fileModTime : Time;
}.

(** [type FakeFS struct { fstest.MapFS }] *)
Abbreviation FakeFS := (gmap string MapFile).

(** The errors of [fs.ReadFile] on a [MapFS], without the operation and the
    path they are wrapped with: [fs.ErrNotExist] from [Open], and
    [fs.ErrInvalid] from reading a directory. *)
Definition ErrNotExist : error := mkError "file does not exist".
Definition ErrInvalid : error := mkError "invalid argument".

(** A name that is no key of the map still opens, as a directory, when it is
    the root [.] or when some key lies below it. *)
Definition impliedDir (ffs : FakeFS) (name : string) : bool :=
  bool_decide (name = ".") ||
  bool_decide (Exists (λ kv, String.prefix (name +:+ "/") kv.1 = true) (map_to_list ffs)).

Section fake.

(** [fs.ValidPath] of the standard library: [MapFS.Open] refuses a name that
    fails it before it looks the name up. *)
Variable ValidPath : string → bool.

(** [fs.ReadFile] on a [MapFS]: [Open] answers that the file does not exist
    for a name that is not a valid path, and for one that names neither an
    entry nor a directory; a directory opens but cannot be read. *)
Definition ReadFile (ffs : FakeFS) (filePath : string) : result string :=
  if ValidPath filePath then
    match ffs !! filePath with
    | Some f => if IsDir f then Err ErrInvalid else Ok (Data f)
    | None => if impliedDir ffs filePath then Err ErrInvalid else Err ErrNotExist
    end
  else Err ErrNotExist.

(** The standard library calls of [parseFile] on decoded JSON values:
    [json.Unmarshal] into a [map[string]any], the [float64] assertion
    (with the conversion to an integer that follows it), the comparison
    with a string, [fmt.Sprintf("%v", v)], [path.Base] and [time.Parse]. *)
Context {Json : Type}.
Variable Unmarshal : string → result (gmap string Json).
Variable asFloat64 : Json → option Z.
Variable asString : Json → option string.
Variable Sprint : Json → string.
Variable Base : string → string.
Variable parseRFC3339 : string → Time.

(** [fakeFileInfo] and its methods.  [BirthTime] asserts that the
    [_birthtime] entry is a string, without the two-result form, so it panics
    where the entry is absent or of another type. *)
Definition fakeFileInfo (filePath : string) (data : gmap string Json) (file : MapFile)
    : FileInfo :=
  {| fiName := Base filePath;
     fiSize := default 0%Z (data !! "_size" ≫= asFloat64);
     ModTime := fileModTime file;
     BirthTime := parseRFC3339 <$> (data !! "_birthtime" ≫= asString) |}.

(** [func (ffs *FakeFS) parseFile(filePath string)], returning a pointer to a
    [metadata.Info] or an error. *)
Definition parseFile (ffs : FakeFS) (filePath : string) : result Info :=
  match ReadFile ffs filePath with
  | Err err => Err err
  | Ok contents =>
      match Unmarshal contents with
      | Err err => Err err
      | Ok data =>
          let getInt key := default 0%Z (data !! key ≫= asFloat64) in
          let duration :=
            match data !! "duration" ≫= asFloat64 with
            | Some d => (d * 1000000000)%Z
            | None => 0%Z
            end in
          Ok {| Tags := (λ v, [Sprint v]) <$> data;
                audioProps :=
                  {| Duration := duration;
                     BitRate := getInt "bitrate";
                     BitDepth := getInt "bitdepth";
                     SampleRate := getInt "samplerate";
                     Channels := getInt "channels" |};
                HasPicture :=
                  bool_decide (data !! "has_picture" ≫= asString = Some "true");
                fileInfo := fakeFileInfo filePath data <$> ffs !! filePath |}
      end
  end.

(** The loop of [ReadTags]: the first path that fails to parse ends the call
    with [return nil, err]. *)
Fixpoint readTagsFrom (ffs : FakeFS) (paths : list string) (acc : gmap string Info)
    : result (gmap string Info) :=
  match paths with
  | [] => Ok acc
  | file :: rest =>
      match parseFile ffs file with
      | Err err => Err err
      | Ok p => readTagsFrom ffs rest (<[file := p]> acc)
      end
  end.

(** [func (ffs *FakeFS) ReadTags(paths ...string) (map[string]metadata.Info, error)] *)
Definition ReadTags (ffs : FakeFS) (paths : list string) : result (gmap string Info) :=
  readTagsFrom ffs paths ∅.

End fake.
End storagetest.

(** ** Package [local]: the storage reading the local file system *)
Module local.
Import metadata.

Section localfs.

(** The collaborators of [localFS]: the registered extractor and [fs.Stat]. *)
Variable Parse : list string → result (gmap string Info).
Variable Stat : string → result FileInfo.

Definition withFileInfo (v : Info) (info : FileInfo) : Info :=
  {| Tags := Tags v; audioProps := audioProps v; HasPicture := HasPicture v;
     fileInfo := Some info |}.

(** The loop over the extractor's results, for a visiting order of them. *)
Fixpoint fillFileInfo (visits : list (string * Info)) (res : gmap string Info)
    : result (gmap string Info) :=
  match visits with
  | [] => Ok res
  | (path, v) :: rest =>
      match fileInfo v with
      | Some _ => fillFileInfo rest res
      | None =>
          match Stat path with
          | Err err => Err err
          | Ok info => fillFileInfo rest (<[path := withFileInfo v info]> res)
          end
      end
  end.

(** [func (lfs localFS) ReadTags(path ...string) (map[string]tag.Properties, error)] *)
Definition ReadTags (paths : list string) : result (gmap string Info) :=
  match Parse paths with
  | Err err => Err err
  | Ok res => fillFileInfo (map_to_list res) res
  end.

End localfs.
End local.

(** ** Package [scanner2]: the folder stage of the scan pipeline *)
Module scanner2.
Import model metadata.

(** [filesBatchSize] used for batching file metadata extraction *)
Definition filesBatchSize : nat := 100.

(** An [fs.DirEntry] of the folder listing; [Info()] may fail. *)
Record DirEntry : Type := mkDirEntry {
  deName : string;
  deInfo : result FileInfo;
}.

(** The fields of the scan job read by this stage.  Its data store and its
    file system are the collaborators of the section below. *)
Record scanJob : Type := mkScanJob {
  fullRescan : bool;
  libraryID : Z;
}.

Record folderEntry : Type := mkFolderEntry {
  job : scanJob;
  path : string;
  id : string;
  audioFiles : gmap string DirEntry;
  missingTracks : list MediaFile;
  tracks : list MediaFile;
  tags : list Tag;
  albums : list Album;
  artists : list Artist;
}.

Definition setMissingTracks (entry : folderEntry) (ms : list MediaFile) : folderEntry :=
  mkFolderEntry (job entry) (path entry) (id entry) (audioFiles entry) ms
    (tracks entry) (tags entry) (albums entry) (artists entry).

Definition setTracksTags (entry : folderEntry) (ts : list MediaFile) (tgs : list Tag)
    : folderEntry :=
  mkFolderEntry (job entry) (path entry) (id entry) (audioFiles entry)
    (missingTracks entry) ts tgs (albums entry) (artists entry).

Definition setAlbumsArtists (entry : folderEntry) (al : list Album) (ar : list Artist)
    : folderEntry :=
  mkFolderEntry (job entry) (path entry) (id entry) (audioFiles entry)
    (missingTracks entry) (tracks entry) (tags entry) al ar.

(** [track.LibraryID = entry.job.lib.ID; track.FolderID = entry.id] *)
Definition setOwner (lib : Z) (folder : string) (mf : MediaFile) : MediaFile :=
  mkMediaFile (mfID mf) (PID mf) lib folder (Path mf) (Title mf) (Missing mf)
    (CreatedAt mf) (UpdatedAt mf).

(** What the stage function hands back to the pipeline: the entry
    pointer and the error of the Go result pair, the state of the outside world and the log
    lines written. *)
Record outcome (W : Type) : Type := mkOutcome {
  world : W;
  logs : list LogEntry;
  entryOut : option folderEntry;
  errOut : option error;
}.
Arguments mkOutcome {W}.
Arguments world {W}.
Arguments logs {W}.
Arguments entryOut {W}.
Arguments errOut {W}.

Section stage.

(** The outside world seen by the stage.  [W] is the state of the music file
    system: [ReadTags] is an I/O call, its answer may differ from one call to
    the next.  [GetByFolder] is the data store query, [Join] is
    [filepath.Join]; [ToMediaFile] and [FlattenAll] stand for
    [metadata.New(path, info).ToMediaFile()] and the [Tags.FlattenAll()] of
    the track it builds, both defined outside the sources. *)
Context {W : Type}.
Variable Join : string → string → string.
Variable GetByFolder : string → result (list MediaFile).
Variable ReadTags : W → list string → W * result (gmap string Info).
Variable ToMediaFile : string → Info → MediaFile.
Variable FlattenAll : string → Info → list Tag.

(** The loop of [processFolder] over [entry.audioFiles], for a visiting
    order [visits] of that map.  It returns the rows left in [dbTracks] and
    the list of files to import, or the error of the first [Info()] that
    fails ([return nil, err]). *)
Fixpoint diffFiles (entryPath : string) (full : bool) (visits : list (string * DirEntry))
    (dbTracks : gmap string MediaFile) (filesToImport : list string)
    : result (gmap string MediaFile * list string) :=
  match visits with
  | [] => Ok (dbTracks, filesToImport)
  | (afPath, af) :: rest =>
      let fullPath := Join entryPath afPath in
      let next imp := diffFiles entryPath full rest (delete afPath dbTracks) imp in
      match dbTracks !! afPath with
      | Some dbTrack =>
          if full then next (filesToImport ++ [fullPath])
          else
            match deInfo af with
            | Err err => Err err
            | Ok info =>
                if After (ModTime info) (UpdatedAt dbTrack)
                then next (filesToImport ++ [fullPath])
                else next filesToImport
            end
      | None => next (filesToImport ++ [fullPath])
      end
  end.

(** The diff of [processFolder]: the rows loaded from the data store are
    keyed by their path, the listing is walked, and the rows that remain are
    the missing tracks ([maps.Values(dbTracks)]). *)
Definition classify (entryPath : string) (full : bool) (visits : list (string * DirEntry))
    (mfs : list MediaFile) : result (list string * list MediaFile) :=
  let dbTracks := slice.ToMap mfs (λ mf, (Path mf, mf)) in
  match diffFiles entryPath full visits dbTracks [] with
  | Err err => Err err
  | Ok (dbTracks, filesToImport) => Ok (filesToImport, (map_to_list dbTracks).*2)
  end.

(** State captured by the closure passed to [RangeByChunks]. *)
Record loadState : Type := mkLoadState {
  lsWorld : W;
  lsLogs : list LogEntry;
  lsTracks : list MediaFile;
  lsTags : gmap string Tag;
}.

(** One round of [for path, info := range allInfo]. *)
Definition addTrack (entry : folderEntry) (st : list MediaFile * gmap string Tag)
    (pi : string * Info) : list MediaFile * gmap string Tag :=
  let track := setOwner (libraryID (job entry)) (id entry) (ToMediaFile pi.1 pi.2) in
  (st.1 ++ [track], foldl (λ m t, <[tagID t := t]> m) st.2 (FlattenAll pi.1 pi.2)).

(** The closure: the extractor is called on [toImport], the whole list, and
    not on [chunk]. *)
Definition loadChunk (entry : folderEntry) (toImport : list string)
    (st : loadState) (chunk : list string) : loadState * option error :=
  match ReadTags (lsWorld st) toImport with
  | (w, Err err) =>
      (mkLoadState w
         (lsLogs st ++ [mkLog LevelWarn "Scanner: Error extracting metadata from files. Skipping"])
         (lsTracks st) (lsTags st), Some err)
  | (w, Ok allInfo) =>
      let tt := foldl (addTrack entry) (lsTracks st, lsTags st) (map_to_list allInfo) in
      (mkLoadState w (lsLogs st) tt.1 tt.2, None)
  end.

(** [func loadTagsFromFiles(ctx, entry, toImport) (model.MediaFiles, model.TagList, error)] *)
Definition loadTagsFromFiles (w : W) (entry : folderEntry) (toImport : list string)
    : loadState * option error :=
  slice.RangeByChunks toImport filesBatchSize (loadChunk entry toImport)
    (mkLoadState w [] [] ∅).

Definition loadAlbumsFromTags (entry : folderEntry) : list Album := [].
Definition loadArtistsFromTags (entry : folderEntry) : list Artist := [].

(** The stage function returned by [processFolder], for a visiting order
    [visits] of [entry.audioFiles]. *)
Definition processFolder (visits : list (string * DirEntry)) (w : W) (entry : folderEntry)
    : outcome W :=
  match GetByFolder (id entry) with
  | Err err =>
      mkOutcome w [mkLog LevelError "Scanner: Error loading mediafiles from DB"]
        (Some entry) (Some err)
  | Ok mfs =>
      match classify (path entry) (fullRescan (job entry)) visits mfs with
      | Err err =>
          mkOutcome w [mkLog LevelWarn "Scanner: Error getting file info"] None (Some err)
      | Ok (filesToImport, missing) =>
          let entry := setMissingTracks entry missing in
          if bool_decide (0 < length filesToImport) then
            match loadTagsFromFiles w entry filesToImport with
            | (st, Some err) =>
                let entry :=
                  setTracksTags entry (lsTracks st) (map_to_list (lsTags st)).*2 in
                mkOutcome (lsWorld st)
                  (lsLogs st ++ [mkLog LevelWarn "Scanner: Error loading tags from files. Skipping"])
                  (Some entry) None
            | (st, None) =>
                let entry :=
                  setTracksTags entry (lsTracks st) (map_to_list (lsTags st)).*2 in
                let entry :=
                  setAlbumsArtists entry (loadAlbumsFromTags entry) (artists entry) in
                let entry :=
                  setAlbumsArtists entry (albums entry) (loadArtistsFromTags entry) in
                mkOutcome (lsWorld st) (lsLogs st) (Some entry) None
            end
          else mkOutcome w [] (Some entry) None
      end
  end.

End stage.
End scanner2.

(** ** Package [persistence]: the media file repository *)
Module persistence.
Import model.

(** The two tables the queries below read and write.  [media_file.id] and
    [library.id] are the primary keys of the schema. *)
Record DB : Type := mkDB {
  media_file : list MediaFile;
  library : list Library;
}.

(** [ORDER BY pid]: strings compare byte-wise. *)
Definition pidLe (a b : MediaFile) : Prop := String.le (PID a) (PID b).

#[global] Instance pidLe_dec : RelDecision pidLe.
Proof. intros a b. unfold pidLe. apply _. Defined.

(** The sub-select: the [pid] of every row that is missing in library
    [libId]. *)
Definition missingPIDs (db : DB) (libId : Z) : list string :=
  PID <$> filter (λ mf, Missing mf = true ∧ LibraryID mf = libId) (media_file db).

(** [JOIN library ON media_file.library_id = library.id] *)
Definition joinLibrary (db : DB) : list (MediaFile * Library) :=
  media_file db ≫= λ mf,
    (λ l, (mf, l)) <$> filter (λ l, libID l = LibraryID mf) (library db).

(** The two [WHERE] clauses of the outer query. *)
Definition matches (pids : list string) (row : MediaFile * Library) : Prop :=
  PID row.1 ∈ pids ∧
  (Missing row.1 = true ∨ After (CreatedAt row.1) (LastScanStartedAt row.2) = true).

#[global] Instance matches_dec pids row : Decision (matches pids row).
Proof. unfold matches. apply _. Defined.

(** [GROUP BY media_file.id], added by [selectMediaFile]: one row for each
    identifier. *)
Fixpoint groupByID (seen : gset string) (rows : list MediaFile) : list MediaFile :=
  match rows with
  | [] => []
  | mf :: rest =>
      if decide (mfID mf ∈ seen) then groupByID seen rest
      else mf :: groupByID ({[mfID mf]} ∪ seen) rest
  end.

(** [GetMissingAndMatching(libId)], called without pagination options.
    [fault] is the error, if any, with which the storage answers the query.
    The annotation, bookmark, participation and tag joins of
    [selectMediaFile] only add columns and are left out. *)
Definition GetMissingAndMatching (fault : option error) (db : DB) (libId : Z)
    : result (list MediaFile) :=
  match fault with
  | Some err => Err err
  | None =>
      let rows := filter (matches (missingPIDs db libId)) (joinLibrary db) in
      Ok (merge_sort pidLe (groupByID ∅ rows.*1))
  end.

(** The [UPDATE] of [MarkMissing]: rows whose [id] is in the chunk and whose
    flag is the opposite of [missing] get the flag and a new [updated_at]. *)
Definition selected (missing : bool) (chunk : list string) (mf : MediaFile) : Prop :=
  mfID mf ∈ chunk ∧ Missing mf = negb missing.

#[global] Instance selected_dec missing chunk mf : Decision (selected missing chunk mf).
Proof. unfold selected. apply _. Defined.

Definition setMissing (missing : bool) (now : Time) (mf : MediaFile) : MediaFile :=
  mkMediaFile (mfID mf) (PID mf) (LibraryID mf) (FolderID mf) (Path mf) (Title mf)
    missing (CreatedAt mf) now.

Definition updateMissing (missing : bool) (now : Time) (chunk : list string)
    (rows : list MediaFile) : list MediaFile :=
  (λ mf, if decide (selected missing chunk mf) then setMissing missing now mf else mf)
    <$> rows.

Definition rowsAffected (missing : bool) (chunk : list string) (rows : list MediaFile)
    : nat :=
  length (filter (selected missing chunk) rows).

(** State threaded through the chunks of one [MarkMissing] call: the
    database, the number of statements issued so far, the log. *)
Record markState : Type := mkMarkState {
  msDB : DB;
  msCount : nat;
  msLogs : list LogEntry;
}.

(** The closure passed to [RangeByChunks].  [fault n] is the error, if any,
    with which the storage answers the [n]-th statement, [now n] the clock
    read when building it.  When no row is affected the closure logs an error
    and returns [err], which is nil. *)
Definition markChunk (fault : nat → option error) (now : nat → Time) (missing : bool)
    (st : markState) (chunk : list string) : markState * option error :=
  let n := msCount st in
  match fault n with
  | Some err =>
      (mkMarkState (msDB st) (S n)
         (msLogs st ++ [mkLog LevelError "Error setting mediafile missing flag"]),
       Some err)
  | None =>
      let rows := media_file (msDB st) in
      let c := rowsAffected missing chunk rows in
      let db := mkDB (updateMissing missing (now n) chunk rows) (library (msDB st)) in
      if bool_decide (c = 0) then
        (mkMarkState db (S n)
           (msLogs st ++ [mkLog LevelError "Error setting mediafile missing flag"]),
         None)
      else
        (mkMarkState db (S n)
           (msLogs st ++ [mkLog LevelDebug "Marked missing mediafiles"]),
         None)
  end.

(** [func (r *mediaFileRepository) MarkMissing(missing bool, mfs ...model.MediaFile) error] *)
Definition MarkMissing (fault : nat → option error) (now : nat → Time) (missing : bool)
    (mfs : list MediaFile) (db : DB) : markState * option error :=
  let ids := mfID <$> mfs in
  slice.RangeByChunks ids 200 (markChunk fault now missing) (mkMarkState db 0 []).

End persistence.

(** ** Reference functions used in the statements of Part II *)
Module reference.
Import model.

(** Appending with de-duplication by identifier: the slice that [Add] leaves
    under the role, computed on lists alone. *)
Fixpoint addList (cur artists : list Artist) : list Artist :=
  match artists with
  | [] => cur
  | a :: rest =>
      if decide (ID a ∈ artistIDs cur) then addList cur rest
      else addList (cur ++ [a]) rest
  end.

(** Whether the diff imports a listed file, read off the rows keyed by
    path: no row, or a full rescan, or a file modified after the row was
    last updated. *)
Definition importsFile (full : bool) (dbTracks : gmap string MediaFile)
    (e : string * scanner2.DirEntry) : bool :=
  match dbTracks !! e.1 with
  | None => true
  | Some row =>
      full || match scanner2.deInfo e.2 with
              | Ok info => After (metadata.ModTime info) (UpdatedAt row)
              | Err _ => false
              end
  end.

(** The files whose [Info()] the diff reads: those with a row, when the
    rescan is not a full one. *)
Definition readsInfo (full : bool) (dbTracks : gmap string MediaFile) (afPath : string)
    : Prop :=
  full = false ∧ is_Some (dbTracks !! afPath).

(** The rows left after the walk of the listing: each visited key has been
    deleted. *)
Definition unlisted (visits : list (string * scanner2.DirEntry))
    (db : gmap string MediaFile) : gmap string MediaFile :=
  foldl (λ m k, delete k m) db visits.*1.

(** An extractor instrumented with the list of the batches it was asked
    for, oldest first. *)
Definition traced {W} (ReadTags : W → list string → W * result (gmap string metadata.Info))
    (wc : W * list (list string)) (paths : list string)
    : (W * list (list string)) * result (gmap string metadata.Info) :=
  let wr := ReadTags wc.1 paths in ((wr.1, wc.2 ++ [paths]), wr.2).

(** What the [UPDATE] of [MarkMissing] does to one row. *)
Definition markRow (missing : bool) (now : Time) (chunk : list string) (mf : MediaFile)
    : MediaFile :=
  if decide (persistence.selected missing chunk mf)
  then persistence.setMissing missing now mf else mf.

End reference.

(** ** Concrete inputs used by the witnesses and the evaluations of Part II *)
Module examples.
Import model metadata.

(** A file carrying no tag at all. *)
Definition untagged : Metadata := mkMetadata "a/b.mp3" (λ _, []).

(** [fs.ValidPath] on a name written in ASCII: the name is [.], or its
    elements between slashes are neither empty nor [.] nor [..]. *)
Definition badElem (elem : string) : bool :=
  bool_decide (elem = "" ∨ elem = "." ∨ elem = "..").

Fixpoint validElems (elem name : string) : bool :=
  match name with
  | EmptyString => negb (badElem elem)
  | String c rest =>
      if bool_decide (String c "" = "/") then negb (badElem elem) && validElems "" rest
      else validElems (elem +:+ String c "") rest
  end.

Definition validPath (name : string) : bool :=
  bool_decide (name = ".") || validElems "" name.

(** A fake file system holding the single file [a.mp3], and [ReadTags] on
    it with a JSON decoder that accepts every file as the empty object. *)
Definition oneFile : storagetest.FakeFS :=
  {[ "a.mp3" := storagetest.mkMapFile "{}" false 0%Z ]}.

Definition fakeParseFile : storagetest.FakeFS → string → result Info :=
  storagetest.parseFile (Json := unit) validPath (λ _, Ok ∅) (λ _, None) (λ _, None)
    (λ _, "") id (λ _, 0%Z).

Definition fakeReadTags : storagetest.FakeFS → list string → result (gmap string Info) :=
  storagetest.ReadTags (Json := unit) validPath (λ _, Ok ∅) (λ _, None) (λ _, None)
    (λ _, "") id (λ _, 0%Z).

(** [filepath.Join] on a folder path and a file name of the listing, both
    free of separators to clean up: the root folder [.] and the empty path
    contribute nothing, any other folder is followed by a slash. *)
Definition joinPath (dir name : string) : string :=
  if decide (dir = "" ∨ dir = ".") then name else dir +:+ "/" +:+ name.

Definition fileAt (name : string) (t : Time) : scanner2.DirEntry :=
  scanner2.mkDirEntry name (Ok (mkFileInfo name 0 t (Some t))).

Definition unreadable (name : string) : scanner2.DirEntry :=
  scanner2.mkDirEntry name (Err (mkError "stat failed")).

Definition rowAt (p : string) (t : Time) : MediaFile :=
  mkMediaFile p p 1 "f1" p "" false t t.

(** The root folder with a new, an unchanged and a modified file on disk,
    and rows for the last two and for a file that is gone. *)
Definition rootListing : gmap string scanner2.DirEntry :=
  {[ "new.mp3" := fileAt "new.mp3" 1%Z;
     "old.mp3" := fileAt "old.mp3" 5%Z;
     "touched.mp3" := fileAt "touched.mp3" 9%Z ]}.

Definition rootRows : list MediaFile :=
  [rowAt "old.mp3" 5%Z; rowAt "touched.mp3" 5%Z; rowAt "gone.mp3" 5%Z].

(** Folder [A] holding [t.mp3], unchanged since it was stored under the path
    [A/t.mp3] that the previous scan handed to the extractor. *)
Definition listingA : gmap string scanner2.DirEntry :=
  {[ "t.mp3" := fileAt "t.mp3" 1%Z ]}.

Definition rowsA : list MediaFile := [rowAt "A/t.mp3" 5%Z].

(** The root folder with two stored files, the first of them unreadable. *)
Definition brokenListing : gmap string scanner2.DirEntry :=
  {[ "a.mp3" := unreadable "a.mp3"; "b.mp3" := fileAt "b.mp3" 9%Z ]}.

Definition brokenRows : list MediaFile := [rowAt "a.mp3" 5%Z; rowAt "b.mp3" 5%Z].

Definition brokenEntry : scanner2.folderEntry :=
  scanner2.mkFolderEntry (scanner2.mkScanJob false 1) "." "f1" brokenListing [] [] [] [] [].

(** An extractor that records the batches it is asked for in the state of
    the world and reports one [Info] for each path. *)
Definition blankInfo : Info := mkInfo ∅ (mkAudioProperties 0 0 0 0 0) false None.

Definition recordCalls (w : list (list string)) (paths : list string)
    : list (list string) * result (gmap string Info) :=
  (w ++ [paths], Ok (list_to_map ((λ p, (p, blankInfo)) <$> paths))).

Definition trackOf (p : string) (i : Info) : MediaFile := rowAt p 0%Z.

(** A folder of 101 files, none of them stored yet. *)
Definition names101 : list string := (λ i : nat, "f" +:+ pretty i +:+ ".mp3") <$> seq 0 101.

Definition listing101 : gmap string scanner2.DirEntry :=
  list_to_map ((λ n, (n, fileAt n 1%Z)) <$> names101).

Definition entry101 : scanner2.folderEntry :=
  scanner2.mkFolderEntry (scanner2.mkScanJob false 1) "." "f1" listing101 [] [] [] [] [].

(** An extractor that answers its first call and fails from the second
    call on; the state of the world counts the calls. *)
Definition failsLater (w : nat) (paths : list string) : nat * result (gmap string Info) :=
  (S w, match w with
        | O => Ok (list_to_map ((λ p, (p, blankInfo)) <$> paths))
        | S _ => Err (mkError "input/output error")
        end).

(** Two libraries last scanned at time 10.  Library 1 has lost the track
    [a]; library 2 holds the track [b] with the same persistent identifier,
    created at time 20; library 1 also holds the unrelated track [c]. *)
Definition twoLibraries : persistence.DB :=
  persistence.mkDB
    [ mkMediaFile "a" "p" 1 "f1" "x/a.mp3" "A" true 5%Z 5%Z;
      mkMediaFile "b" "p" 2 "f2" "y/b.mp3" "B" false 20%Z 20%Z;
      mkMediaFile "c" "q" 1 "f1" "x/c.mp3" "C" false 20%Z 20%Z ]
    [ mkLibrary 1 "one" "/one" 10%Z; mkLibrary 2 "two" "/two" 10%Z ].

End examples.

(** ** Package [model]: roles as text *)
Module role_text.
Import model.

(** [func (r Role) String() string] *)
Definition String (r : Role) : string := role r.

(** [func (r Role) MarshalText() (text []byte, err error)]: never fails. *)
Definition MarshalText (r : Role) : result string := Ok (role r).

(** [func (r *Role) UnmarshalText(text []byte) error]: the role stored
    through the receiver on success, the error otherwise (the receiver is
    then left as it was). *)
Definition UnmarshalText (text : string) : result Role :=
  let r := RoleFromString text in
  if decide (r = RoleInvalid) then Err (mkError ("invalid role: " +:+ text))
  else Ok r.

End role_text.

(** ** Package [metadata]: display names *)
Module display.
Import model metadata.

(** [cmp.Or]: the first argument that is not the empty string, the empty
    string when there is none. *)
Fixpoint cmpOr (values : list string) : string :=
  match values with
  | [] => ""
  | v :: rest => if decide (v = "") then cmpOr rest else v
  end.

(** The fields of the media file under construction that the two mappers
    read: [mf.Participations] and [mf.Artist]. *)
Record mappedFile : Type := mkMappedFile {
  mfParticipations : Participations;
  mfArtist : string;
}.

Section display.
Variable UnknownArtist : string.

(** [func (md Metadata) mapDisplayArtist(mf model.MediaFile) string] *)
Definition mapDisplayArtist (md : Metadata) (mf : mappedFile) : string :=
  let artistNames := Strings md TrackArtist in
  let artistsNames := Strings md TrackArtists in
  let values0 :=
    match artistNames with
    | [a] => a
    | _ =>
        match artistsNames with
        | a :: _ => a
        | [] => match artistNames with a :: _ => a | [] => "" end
        end
    end in
  cmpOr [values0; Name (First RoleArtist (mfParticipations mf)); UnknownArtist].

(** [func (md Metadata) mapDisplayAlbumArtist(mf model.MediaFile) string] *)
Definition mapDisplayAlbumArtist (md : Metadata) (mf : mappedFile) : string :=
  let artistNames := Strings md AlbumArtist in
  let artistsNames := Strings md AlbumArtists in
  let values0 :=
    match artistNames with
    | [a] => a
    | _ =>
        match artistsNames with
        | a :: _ => a
        | [] => match artistNames with a :: _ => a | [] => "" end
        end
    end in
  cmpOr [values0; Name (First RoleAlbumArtist (mfParticipations mf)); mfArtist mf].

End display.
End display.

(** ** Package [storagetest]: touching a file *)
Module fakefs.
Import storagetest.

Definition setModTime (f : MapFile) (t : Time) : MapFile :=
  mkMapFile (Data f) (IsDir f) t.

Definition ErrFatal : error :=
  mkError "Directory not found. Forgot to call SetFiles?".
Definition ErrNilPointer : error :=
  mkError "invalid memory address or nil pointer dereference".

Section touch.

(** [path.Dir] of the standard library. *)
Variable Dir : string → string.

(** [func (ffs *FakeFS) Touch(filePath string, t ...time.Time)], with [t]
    the time given or, by default, the clock.  The file system is returned
    when the call returns; [log.Fatal] and the panic of Go are errors.  When
    the file is not in the map an entry is stored for it, but the variable
    [file] stays nil, and reading [file.ModTime] panics.  Entries are values
    here: no two paths share one [MapFile]. *)
Definition Touch (ffs : FakeFS) (filePath : string) (t : Time) : result FakeFS :=
  match ffs !! filePath with
  | Some file =>
      let ffs := <[filePath := setModTime file t]> ffs in
      match ffs !! Dir filePath with
      | None => Err ErrFatal
      | Some dirFile =>
          if bool_decide (fileModTime dirFile < t)%Z
          then Ok (<[Dir filePath := setModTime dirFile t]> ffs)
          else Ok ffs
      end
  | None =>
      let ffs := <[filePath := mkMapFile "" false t]> ffs in
      match ffs !! Dir filePath with
      | None => Err ErrFatal
      | Some dirFile => Err ErrNilPointer
      end
  end.

End touch.
End fakefs.

(** ** Package [persistence]: more of the media file repository *)
Module repository.
Import model persistence.

(** [model.ErrNotFound], declared outside the sources. *)
Definition ErrNotFound : error := mkError "data not found".

(** [func (r *mediaFileRepository) Get(id string)], returning a pointer to a
    [model.MediaFile] or an error: the first row of the select on [media_file.id], grouped by identifier.
    [fault] is the error, if any, with which the storage answers. *)
Definition Get (fault : option error) (db : DB) (id : string) : result MediaFile :=
  match fault with
  | Some err => Err err
  | None =>
      match groupByID ∅ (filter (λ mf, mfID mf = id) (media_file db)) with
      | [] => Err ErrNotFound
      | mf :: _ => Ok mf
      end
  end.

(** The [UPDATE] of [MarkMissingByFolder]: rows whose [folder_id] is in the
    chunk and whose flag is the opposite of [missing]. *)
Definition selectedByFolder (missing : bool) (chunk : list string) (mf : MediaFile) : Prop :=
  FolderID mf ∈ chunk ∧ Missing mf = negb missing.

#[global] Instance selectedByFolder_dec missing chunk mf :
  Decision (selectedByFolder missing chunk mf).
Proof. unfold selectedByFolder. apply _. Defined.

Definition markFolderRow (missing : bool) (now : Time) (chunk : list string)
    (mf : MediaFile) : MediaFile :=
  if decide (selectedByFolder missing chunk mf) then setMissing missing now mf else mf.

(** The closure of [MarkMissingByFolder]: only a storage error is an error;
    a chunk that matches no row is logged like any other. *)
Definition markFolderChunk (fault : nat → option error) (now : nat → Time) (missing : bool)
    (st : markState) (chunk : list string) : markState * option error :=
  let n := msCount st in
  match fault n with
  | Some err =>
      (mkMarkState (msDB st) (S n)
         (msLogs st ++ [mkLog LevelError "Error setting mediafile missing flag"]),
       Some err)
  | None =>
      let rows := media_file (msDB st) in
      let db := mkDB (markFolderRow missing (now n) chunk <$> rows) (library (msDB st)) in
      (mkMarkState db (S n)
         (msLogs st ++ [mkLog LevelDebug "Marked missing mediafiles from missing folders"]),
       None)
  end.

(** [func (r *mediaFileRepository) MarkMissingByFolder(missing bool, folderIDs ...string) error] *)
Definition MarkMissingByFolder (fault : nat → option error) (now : nat → Time)
    (missing : bool) (folderIDs : list string) (db : DB) : markState * option error :=
  slice.RangeByChunks folderIDs 200 (markFolderChunk fault now missing)
    (mkMarkState db 0 []).

End repository.

(** ** More reference functions for the statements of Part II *)
Module reference2.
Import model.

(** The thirteen roles registered in [allRoles]. *)
Definition knownRoles : list Role :=
  [RoleArtist; RoleAlbumArtist; RoleComposer; RoleConductor; RoleLyricist;
   RoleArranger; RoleProducer; RoleDirector; RoleEngineer; RoleMixer;
   RoleRemixer; RoleDJMixer; RolePerformer].

(** The zero [Artist] that [First] returns for a role without artists. *)
Definition noArtist : Artist := mkArtist "" "" "" "" "".

(** No artist identifier occurs twice under any role. *)
Definition deduplicated (p : Participations) : Prop :=
  ∀ r, NoDup (ID <$> p !!! r).

End reference2.

(** The artist lists that [mapParticipations] computes before it stores
    them. *)
Module mapped.
Import model metadata.

Section mapped.
Variable UnknownArtist : string.
Variable artistID : Metadata → string → string.
Variable Sanitize : string → string.

(** The name values [parseArtists] works from: the plural tag when it has
    values, else the singular tag, else the sentinel. *)
Definition nameValues (md : Metadata) (name names : TagName) : list string :=
  match Strings md names with
  | _ :: _ => Strings md names
  | [] => match Strings md name with
          | _ :: _ => Strings md name
          | [] => [UnknownArtist]
          end
  end.

Definition trackArtists (md : Metadata) : list Artist :=
  parseArtists UnknownArtist artistID Sanitize md TrackArtist TrackArtists
    TrackArtistSort TrackArtistsSort MusicBrainzArtistID.

Definition taggedAlbumArtists (md : Metadata) : list Artist :=
  parseArtists UnknownArtist artistID Sanitize md AlbumArtist AlbumArtists
    AlbumArtistSort AlbumArtistsSort MusicBrainzAlbumArtistID.

(** The artists read from the tags of a role of [roleMappings]. *)
Definition roleArtists (md : Metadata) (info : artistInfo) : list Artist :=
  parseArtist artistID Sanitize md (getTags md [name info]) (getTags md [sort info])
    (Strings md (mbid info)).

End mapped.
End mapped.

(** The invariant of the tracks and tags gathered for a folder: the tracks
    belong to the folder and to the library of the job, and every tag is
    stored under its own identifier. *)
Module reference_stage.
Import model.

Definition owned (entry : scanner2.folderEntry) (ts : list MediaFile)
    (m : gmap string Tag) : Prop :=
  Forall (λ t, LibraryID t = scanner2.libraryID (scanner2.job entry) ∧
               FolderID t = scanner2.id entry) ts ∧
  ∀ k t, m !! k = Some t → tagID t = k.

End reference_stage.

(** What [localFS.ReadTags] does to one result of the extractor. *)
Module reference_local.
Import metadata.

Definition filled (Stat : string → result FileInfo) (p : string) (v : Info) : Info :=
  match fileInfo v with
  | Some _ => v
  | None => match Stat p with
            | Ok info => local.withFileInfo v info
            | Err _ => v
            end
  end.

End reference_local.

(** ** More concrete inputs *)
Module examples2.
Import model metadata.

(** A fake file system with its root directory and one file in it. *)
Definition touchFS : storagetest.FakeFS :=
  {[ "." := storagetest.mkMapFile "" true 1%Z;
     "a.mp3" := storagetest.mkMapFile "{}" false 1%Z ]}.

(** [path.Dir] on the names of [touchFS]. *)
Definition rootDir (p : string) : string := ".".

(** An extractor reporting one file without file details, and a [Stat]. *)
Definition parseOne (paths : list string) : result (gmap string Info) :=
  Ok {[ "a.mp3" := examples.blankInfo ]}.

Definition statAll (p : string) : result FileInfo :=
  Ok (mkFileInfo p 3%Z 4%Z (Some 5%Z)).

End examples2.

(** What the [UPDATE] of [MarkMissingByFolder] leaves of a run of chunks. *)
Module reference_repository.
Import model persistence repository.

Definition runFolders (fault : nat → option error) (now : nat → Time) (missing : bool)
    (st : markState) (chunks : list (list string)) : markState * option error :=
  slice.rangeChunks (markFolderChunk fault now missing) st chunks.

End reference_repository.

(** * Part II: lemmas and theorems *)

(** ** Chunking *)
Module slice_facts.
Import slice.

Lemma BreakUpFuel_concat {A} (fuel n : nat) (items : list A) :
  0 < n → length items ≤ fuel → concat (BreakUpFuel fuel n items) = items.
Proof.
  intros Hn. revert items.
  induction fuel as [|fuel IH]; intros items Hlen; simpl.
  - destruct items; simpl in *; [done | lia].
  - destruct items as [|x items]; [done |].
    simpl concat. rewrite IH.
    + apply take_drop.
    + rewrite length_drop. simpl in *. lia.
Qed.

Lemma BreakUp_concat {A} (n : nat) (items : list A) :
  0 < n → concat (BreakUp n items) = items.
Proof. intros Hn. by apply BreakUpFuel_concat. Qed.

Lemma BreakUpFuel_sizes {A} (fuel n : nat) (items : list A) :
  Forall (λ chunk, 0 < length chunk ≤ n) (BreakUpFuel fuel (S n - 1 + 1 - 1) items) ∨ n = 0.
Proof.
  destruct n as [|n]; [by right | left].
  replace (S (S n) - 1 + 1 - 1) with (S n) by lia.
  revert items. induction fuel as [|fuel IH]; intros items; simpl; [constructor |].
  destruct items as [|x items]; [constructor |].
  constructor; [| apply IH].
  rewrite length_take. simpl. lia.
Qed.

Lemma BreakUp_sizes {A} (n : nat) (items : list A) :
  0 < n → Forall (λ chunk, 0 < length chunk ≤ n) (BreakUp n items).
Proof.
  intros Hn. destruct (BreakUpFuel_sizes (length items) n items) as [H|]; [| lia].
  by replace (S n - 1 + 1 - 1) with n in H by lia.
Qed.

(** A callback that never fails is run on every chunk. *)
Lemma rangeChunks_no_error {A S} (cb : S → list A → S * option error) s chunks :
  (∀ s c, (cb s c).2 = None) →
  rangeChunks cb s chunks = (foldl (λ s c, (cb s c).1) s chunks, None).
Proof.
  intros Hcb. revert s. induction chunks as [|c chunks IH]; intros s; simpl; [done |].
  specialize (Hcb s c). destruct (cb s c) as [s' [e|]]; simpl in *; [done |].
  apply IH.
Qed.

End slice_facts.

(** ** Participations *)
Module participations_facts.
Import model reference.

Lemma elem_of_artistIDs (x : string) (artists : list Artist) :
  x ∈ artistIDs artists ↔ ∃ a, a ∈ artists ∧ ID a = x.
Proof.
  unfold artistIDs. rewrite elem_of_list_to_set, list_elem_of_fmap. naive_solver.
Qed.

Lemma artistIDs_app (l k : list Artist) :
  artistIDs (l ++ k) = artistIDs l ∪ artistIDs k.
Proof. unfold artistIDs. rewrite fmap_app. apply leibniz_equiv, list_to_set_app. Qed.

Lemma artistIDs_cons (a : Artist) (l : list Artist) :
  artistIDs (a :: l) = {[ID a]} ∪ artistIDs l.
Proof. done. Qed.

(** *** The three equations of [Add] *)

Lemma Add_nil (r : Role) (p : Participations) : Add r [] p = p.
Proof. done. Qed.

Lemma Add_one (r : Role) (a : Artist) (p : Participations) :
  Add r [a] p =
    if decide (ID a ∈ artistIDs (p !!! r)) then p else <[r := (p !!! r) ++ [a]]> p.
Proof. unfold Add, addArtist. simpl. by case_decide. Qed.

(** The set of seen identifiers is always the set of identifiers stored
    under the role. *)
Lemma addArtist_seen (r : Role) (a : Artist) (p : Participations) :
  addArtist r (artistIDs (p !!! r), p) a =
    (artistIDs (Add r [a] p !!! r), Add r [a] p).
Proof.
  rewrite Add_one. unfold addArtist. simpl. case_decide; [done |].
  rewrite lookup_total_insert_eq, artistIDs_app. f_equal.
  unfold artistIDs at 3. simpl. set_solver.
Qed.

Lemma Add_cons (r : Role) (a : Artist) (artists : list Artist) (p : Participations) :
  Add r (a :: artists) p = Add r artists (Add r [a] p).
Proof. unfold Add at 1 2. simpl. by rewrite addArtist_seen. Qed.

(** *** What [Add] stores *)

Lemma addList_length (cur artists : list Artist) :
  length cur ≤ length (addList cur artists).
Proof.
  revert cur. induction artists as [|a artists IH]; intros cur; simpl; [done |].
  case_decide; [apply IH |].
  etrans; [| apply IH]. rewrite length_app. simpl. lia.
Qed.

Lemma addList_seen (cur artists : list Artist) :
  (∀ a, a ∈ artists → ID a ∈ artistIDs cur) → addList cur artists = cur.
Proof.
  induction artists as [|a artists IH]; intros Hseen; simpl; [done |].
  rewrite decide_True by (apply Hseen; left).
  apply IH. intros b Hb. apply Hseen. by right.
Qed.

Lemma artistIDs_addList (cur artists : list Artist) :
  artistIDs (addList cur artists) = artistIDs cur ∪ artistIDs artists.
Proof.
  revert cur. induction artists as [|a artists IH]; intros cur; simpl.
  - unfold artistIDs at 3. simpl. set_solver.
  - rewrite artistIDs_cons. case_decide as Hin; rewrite IH.
    + set_solver.
    + rewrite artistIDs_app. unfold artistIDs at 2. simpl. set_solver.
Qed.

Lemma Add_lookup_ne (r r' : Role) (artists : list Artist) (p : Participations) :
  r ≠ r' → Add r artists p !! r' = p !! r'.
Proof.
  intros Hne. revert p. induction artists as [|a artists IH]; intros p; [done |].
  rewrite Add_cons, IH, Add_one. case_decide; [done |]. by rewrite lookup_insert_ne.
Qed.

Lemma Add_lookup (r : Role) (artists : list Artist) (p : Participations) :
  Add r artists p !! r =
    if decide (addList (p !!! r) artists = p !!! r) then p !! r
    else Some (addList (p !!! r) artists).
Proof.
  revert p. induction artists as [|a artists IH]; intros p.
  - rewrite Add_nil. simpl. by rewrite decide_True.
  - rewrite Add_cons, IH, Add_one. simpl.
    destruct (decide (ID a ∈ artistIDs (p !!! r))) as [Hin|Hin]; [done |].
    rewrite lookup_total_insert_eq, lookup_insert_eq.
    pose proof (addList_length (p !!! r ++ [a]) artists) as Hlen.
    rewrite (decide_False (P := _ = p !!! r)).
    + by case_decide as Heq; [rewrite Heq |].
    + intros Heq. rewrite Heq, length_app in Hlen. simpl in Hlen. lia.
Qed.

Lemma Add_lookup_total (r : Role) (artists : list Artist) (p : Participations) :
  Add r artists p !!! r = addList (p !!! r) artists.
Proof.
  rewrite (lookup_total_alt (Add r artists p)), Add_lookup.
  case_decide as Heq; [| done]. by rewrite Heq, lookup_total_alt.
Qed.

Lemma Add_lookup_total_ne (r r' : Role) (artists : list Artist) (p : Participations) :
  r ≠ r' → Add r artists p !!! r' = p !!! r'.
Proof. intros. by rewrite !lookup_total_alt, Add_lookup_ne. Qed.

(** Adding artists that are all present changes nothing, not even the key
    set of the map. *)
Lemma Add_seen (r : Role) (artists : list Artist) (p : Participations) :
  (∀ a, a ∈ artists → ID a ∈ artistIDs (p !!! r)) → Add r artists p = p.
Proof.
  revert p. induction artists as [|a artists IH]; intros p Hseen; [done |].
  rewrite Add_cons, Add_one, decide_True by (apply Hseen; left).
  apply IH. intros b Hb. apply Hseen. by right.
Qed.

(** *** [Merge] *)

Lemma mergeIn_lookup_total (visits : list (Role * list Artist)) (p : Participations) r :
  NoDup visits.*1 →
  mergeIn visits p !!! r =
    addList (p !!! r) ((list_to_map visits : Participations) !!! r).
Proof.
  revert p. induction visits as [|[r0 as0] visits IH]; intros p Hnd.
  - simpl. by rewrite lookup_total_empty.
  - apply NoDup_cons in Hnd as [Hr0 Hnd]. simpl.
    change (foldl _ (Add r0 as0 p) visits) with (mergeIn visits (Add r0 as0 p)).
    rewrite IH by done. destruct (decide (r0 = r)) as [->|Hne].
    + rewrite lookup_total_insert_eq, Add_lookup_total.
      rewrite (lookup_total_alt (list_to_map visits)).
      by rewrite (not_elem_of_list_to_map_1 _ _ Hr0).
    + by rewrite lookup_total_insert_ne, Add_lookup_total_ne.
Qed.

(** The artists found under a role after a merge do not depend on the order
    in which Go visits [other]. *)
Lemma mergeIn_order (visits : list (Role * list Artist)) (p other : Participations) r :
  visits ≡ₚ map_to_list other →
  mergeIn visits p !!! r = addList (p !!! r) (other !!! r).
Proof.
  intros Hperm.
  assert (NoDup visits.*1) as Hnd.
  { rewrite Hperm. apply NoDup_fst_map_to_list. }
  rewrite mergeIn_lookup_total by done. f_equal.
  by rewrite (list_to_map_proper _ _ Hnd Hperm), list_to_map_to_list.
Qed.

Lemma Merge_lookup_total (p other : Participations) (r : Role) :
  Merge p other !!! r = addList (p !!! r) (other !!! r).
Proof. by apply mergeIn_order. Qed.

Lemma mergeIn_self (visits : list (Role * list Artist)) (p : Participations) :
  (∀ r artists, (r, artists) ∈ visits → p !! r = Some artists) →
  mergeIn visits p = p.
Proof.
  induction visits as [|[r0 as0] visits IH]; intros Hin; [done |].
  simpl. rewrite Add_seen.
  - apply IH. intros r artists Hr. apply Hin. by right.
  - intros a Ha. rewrite lookup_total_alt, (Hin r0 as0) by left. simpl.
    apply elem_of_artistIDs. eauto.
Qed.

(** C8. Participations merge law: under every role, merging [P1] and [P2]
    in either order yields the same set of artist identifiers, and merging a
    [Participations] with itself returns it unchanged. *)
Theorem Merge_commutative_idempotent (P1 P2 : Participations) :
  (∀ r, artistIDs (Merge P1 P2 !!! r) = artistIDs (Merge P2 P1 !!! r)) ∧
  Merge P1 P1 = P1.
Proof.
  split.
  - intros r. rewrite !Merge_lookup_total, !artistIDs_addList. set_solver.
  - apply mergeIn_self. intros r artists Hin. by apply elem_of_map_to_list.
Qed.

End participations_facts.

(** ** Mapping tags to participations *)
Module metadata_facts.
Import model reference metadata participations_facts.

Section mapping.
Variable UnknownArtist : string.
Variable artistID : Metadata → string → string.
Variable Sanitize : string → string.

Local Abbreviation mapP := (mapParticipations UnknownArtist artistID Sanitize).
Local Abbreviation parseAs := (parseArtists UnknownArtist artistID Sanitize).

Lemma addEach_Add (r : Role) (artists : list Artist) (p : Participations) :
  addEach r artists p = Add r artists p.
Proof.
  revert p. induction artists as [|a artists IH]; intros p; [done |].
  rewrite Add_cons. apply IH.
Qed.

Lemma mapRoles_lookup_ne (md : Metadata) (visits : list (Role * artistInfo))
    (p : Participations) (r : Role) :
  r ∉ visits.*1 → mapRoles artistID Sanitize md visits p !! r = p !! r.
Proof.
  revert p. induction visits as [|[r0 info] visits IH]; intros p Hr; [done |].
  simpl in *. apply not_elem_of_cons in Hr as [Hne Hr].
  change (foldl _ ?q visits) with (mapRoles artistID Sanitize md visits q).
  rewrite IH by done. rewrite addEach_Add. by apply Add_lookup_ne.
Qed.

(** Without a name tag, [parseArtists] returns the one sentinel artist. *)
Lemma parseArtists_unknown (md : Metadata) (name names sort sorts mbid : TagName) :
  Strings md names = [] → Strings md name = [] →
  ∃ a, parseAs md name names sort sorts mbid = [a] ∧
       Name a = UnknownArtist ∧ ID a = artistID md UnknownArtist.
Proof.
  intros Hnames Hname. unfold parseArtists. simpl.
  rewrite Hnames, Hname. simpl. eauto.
Qed.

(** The track and album artist lists and the map built from them. *)
Lemma mapParticipations_artist (md : Metadata) :
  mapP md !! RoleArtist =
    Add RoleArtist
      (parseAs md TrackArtist TrackArtists TrackArtistSort TrackArtistsSort
         MusicBrainzArtistID) ∅ !! RoleArtist.
Proof.
  unfold mapParticipations.
  rewrite mapRoles_lookup_ne by (vm_compute; set_solver).
  rewrite !addEach_Add. by rewrite Add_lookup_ne.
Qed.

Lemma Add_fresh_role (r : Role) (artists : list Artist) (p : Participations) :
  p !! r = None →
  Add r artists p !! r = if decide (addList [] artists = []) then None
                         else Some (addList [] artists).
Proof.
  intros Hnone. rewrite Add_lookup, lookup_total_alt, Hnone. simpl.
  by repeat case_decide.
Qed.

(** C7. Missing-tag-data policy: a file without a track-artist tag gets the
    single sentinel artist named [UnknownArtist] as its track artist, and a
    file without an album-artist tag gets, as album artists, the very list
    stored for its track artists. *)
Theorem missing_tag_policy (md : Metadata) :
  (Strings md TrackArtists = [] → Strings md TrackArtist = [] →
   ∃ a, mapP md !! RoleArtist = Some [a] ∧
        Name a = UnknownArtist ∧ ID a = artistID md UnknownArtist) ∧
  (Strings md AlbumArtists = [] → Strings md AlbumArtist = [] →
   mapP md !! RoleAlbumArtist = mapP md !! RoleArtist).
Proof.
  split.
  - intros Hs H1.
    destruct (parseArtists_unknown md TrackArtist TrackArtists TrackArtistSort
                TrackArtistsSort MusicBrainzArtistID Hs H1) as (a & Heq & Hn & Hid).
    exists a. split; [| done].
    rewrite mapParticipations_artist, Heq, Add_one.
    rewrite lookup_total_empty. unfold artistIDs. simpl.
    rewrite decide_False by set_solver. by rewrite lookup_insert_eq.
  - intros Hs H1. rewrite mapParticipations_artist.
    destruct (parseArtists_unknown md AlbumArtist AlbumArtists AlbumArtistSort
                AlbumArtistsSort MusicBrainzAlbumArtistID Hs H1) as (a & Heq & Hn & _).
    unfold mapParticipations.
    rewrite mapRoles_lookup_ne by (vm_compute; set_solver).
    rewrite Heq. rewrite bool_decide_eq_true_2 by done.
    rewrite !addEach_Add.
    rewrite !Add_fresh_role; [done | done |].
    by rewrite Add_lookup_ne.
Qed.

End mapping.

Lemma missing_tag_policy_witness :
  (∃ a, mapParticipations "[Unknown Artist]" (λ _ nm, nm) id examples.untagged !! RoleArtist
          = Some [a] ∧
        Name a = "[Unknown Artist]" ∧ ID a = "[Unknown Artist]") ∧
  mapParticipations "[Unknown Artist]" (λ _ nm, nm) id examples.untagged !! RoleAlbumArtist =
    mapParticipations "[Unknown Artist]" (λ _ nm, nm) id examples.untagged !! RoleArtist.
Proof.
  destruct (missing_tag_policy "[Unknown Artist]" (λ _ nm, nm) id examples.untagged) as [Ha Hb].
  split; [apply Ha | apply Hb]; reflexivity.
Defined.

End metadata_facts.

(** ** The two implementations of [ReadTags] *)
Module storage_facts.
Import metadata reference_local.

Section fake.
Context {Json : Type}.
Variable ValidPath : string → bool.
Variable Unmarshal : string → result (gmap string Json).
Variable asFloat64 : Json → option Z.
Variable asString : Json → option string.
Variable Sprint : Json → string.
Variable Base : string → string.
Variable parseRFC3339 : string → Time.

Local Abbreviation parseFile :=
  (storagetest.parseFile ValidPath Unmarshal asFloat64 asString Sprint Base parseRFC3339).
Local Abbreviation readTagsFrom :=
  (storagetest.readTagsFrom ValidPath Unmarshal asFloat64 asString Sprint Base parseRFC3339).
Local Abbreviation ReadTags :=
  (storagetest.ReadTags ValidPath Unmarshal asFloat64 asString Sprint Base parseRFC3339).

(** A path that fails stops the loop, whatever follows it. *)
Lemma readTagsFrom_abort ffs (pre post : list string) (p : string) err acc :
  (∀ q, q ∈ pre → isErr (parseFile ffs q) = false) →
  parseFile ffs p = Err err →
  readTagsFrom ffs (pre ++ p :: post) acc = Err err.
Proof.
  revert acc. induction pre as [|q pre IH]; intros acc Hpre Hp; simpl.
  - by rewrite Hp.
  - pose proof (Hpre q ltac:(left)) as Hq.
    destruct (parseFile ffs q) as [i|e]; [| done].
    apply IH; [| done]. intros q' Hq'. apply Hpre. by right.
Qed.

(** When every path parses, each one is stored under its own name. *)
Lemma readTagsFrom_ok ffs (paths : list string) acc :
  (∀ q, q ∈ paths → isErr (parseFile ffs q) = false) →
  ∃ m, readTagsFrom ffs paths acc = Ok m ∧
       ∀ q, m !! q = if decide (q ∈ paths) then
                       match parseFile ffs q with Ok i => Some i | Err _ => None end
                     else acc !! q.
Proof.
  revert acc. induction paths as [|p paths IH]; intros acc Hall; simpl.
  - exists acc. split; [done |]. by intros q.
  - pose proof (Hall p ltac:(left)) as Hp.
    destruct (parseFile ffs p) as [i|e] eqn:Hpi; [| done].
    destruct (IH (<[p := i]> acc)) as (m & Hm & Hlook).
    { intros q Hq. apply Hall. by right. }
    exists m. split; [done |]. intros q. rewrite Hlook.
    destruct (decide (q ∈ paths)) as [Hin|Hnin].
    + by rewrite decide_True by (by right).
    + destruct (decide (q = p)) as [->|Hne].
      * rewrite decide_True by left. by rewrite lookup_insert_eq, Hpi.
      * rewrite decide_False by set_solver. by rewrite lookup_insert_ne.
Qed.

Lemma fake_ReadTags_all_or_nothing ffs (paths : list string) :
  (∀ pre p post err,
     paths = pre ++ p :: post →
     (∀ q, q ∈ pre → isErr (parseFile ffs q) = false) →
     parseFile ffs p = Err err →
     ReadTags ffs paths = Err err) ∧
  ((∀ q, q ∈ paths → isErr (parseFile ffs q) = false) →
   ∃ m, ReadTags ffs paths = Ok m ∧
        ∀ q, m !! q = if decide (q ∈ paths) then
                        match parseFile ffs q with Ok i => Some i | Err _ => None end
                      else None).
Proof.
  split.
  - intros pre p post err -> Hpre Hp. by apply readTagsFrom_abort.
  - intros Hall. destruct (readTagsFrom_ok ffs paths ∅ Hall) as (m & Hm & Hlook).
    exists m. split; [done |]. intros q. rewrite Hlook. by rewrite lookup_empty.
Qed.

End fake.

Section localfs.
Variable Parse : list string → result (gmap string Info).
Variable Stat : string → result FileInfo.

Lemma fillFileInfo_abort (pre post : list (string * Info)) p v err res :
  (∀ q, q ∈ pre → fileInfo q.2 = None → isErr (Stat q.1) = false) →
  fileInfo v = None → Stat p = Err err →
  local.fillFileInfo Stat (pre ++ (p, v) :: post) res = Err err.
Proof.
  revert res. induction pre as [|[q w] pre IH]; intros res Hpre Hv Hp; simpl.
  - by rewrite Hv, Hp.
  - assert (∀ q', q' ∈ pre → fileInfo q'.2 = None → isErr (Stat q'.1) = false) as Hpre'.
    { intros q' Hq'. apply Hpre. by right. }
    destruct (fileInfo w) eqn:Hw; [by apply IH |].
    pose proof (Hpre (q, w) ltac:(left) Hw) as Hq. simpl in Hq.
    destruct (Stat q); [by apply IH | done].
Qed.

Lemma fillFileInfo_ok (visits : list (string * Info)) (acc : gmap string Info) :
  NoDup visits.*1 →
  (∀ p v, (p, v) ∈ visits → acc !! p = Some v) →
  (∀ p v, (p, v) ∈ visits → fileInfo v = None → isErr (Stat p) = false) →
  ∃ m, local.fillFileInfo Stat visits acc = Ok m ∧
       ∀ p, m !! p = if decide (p ∈ visits.*1) then filled Stat p <$> acc !! p
                     else acc !! p.
Proof.
  revert acc. induction visits as [|[p0 v0] visits IH]; intros acc Hnd Hacc Hstat.
  - exists acc. split; [done |]. intros p. by rewrite decide_False by apply not_elem_of_nil.
  - apply NoDup_cons in Hnd as [Hfresh Hnd].
    assert (∀ p v, (p, v) ∈ visits → p ≠ p0) as Hne.
    { intros p v Hin ->. apply Hfresh. apply list_elem_of_fmap. by exists (p0, v). }
    pose proof (Hacc p0 v0 ltac:(left)) as Hp0.
    simpl. destruct (fileInfo v0) as [fi|] eqn:Hfi.
    + destruct (IH acc Hnd) as (m & Hm & Hlook).
      { intros p v Hin. apply Hacc. by right. }
      { intros p v Hin. apply Hstat. by right. }
      exists m. split; [done |]. intros p. rewrite Hlook.
      destruct (decide (p = p0)) as [->|Hpne].
      * rewrite decide_False by done. rewrite decide_True by left.
        rewrite Hp0. simpl. unfold filled. by rewrite Hfi.
      * destruct (decide (p ∈ visits.*1)) as [Hin|Hnin].
        -- by rewrite decide_True by (by right).
        -- by rewrite decide_False by set_solver.
    + pose proof (Hstat p0 v0 ltac:(left) Hfi) as Hs.
      destruct (Stat p0) as [info|err] eqn:Hst; [| done].
      destruct (IH (<[p0 := local.withFileInfo v0 info]> acc) Hnd) as (m & Hm & Hlook).
      { intros p v Hin. rewrite lookup_insert_ne by (symmetry; by eapply Hne).
        apply Hacc. by right. }
      { intros p v Hin. apply Hstat. by right. }
      exists m. split; [done |]. intros p. rewrite Hlook.
      destruct (decide (p = p0)) as [->|Hpne].
      * rewrite decide_False by done. rewrite decide_True by left.
        rewrite lookup_insert_eq, Hp0. simpl. unfold filled. by rewrite Hfi, Hst.
      * rewrite lookup_insert_ne by done.
        destruct (decide (p ∈ visits.*1)) as [Hin|Hnin].
        -- by rewrite decide_True by (by right).
        -- by rewrite decide_False by set_solver.
Qed.

Lemma local_ReadTags_abort (paths : list string) :
  (∀ err, Parse paths = Err err → local.ReadTags Parse Stat paths = Err err) ∧
  (∀ res p v err,
     Parse paths = Ok res → res !! p = Some v → fileInfo v = None →
     Stat p = Err err → isErr (local.ReadTags Parse Stat paths) = true).
Proof.
  split.
  - intros err Herr. unfold local.ReadTags. by rewrite Herr.
  - intros res p v err Hres Hp Hv Hstat. unfold local.ReadTags. rewrite Hres.
    apply elem_of_map_to_list in Hp.
    generalize dependent (map_to_list res). intros visits Hin. generalize res.
    induction visits as [|[q w] visits IH]; intros acc; [by apply elem_of_nil in Hin |].
    simpl. apply elem_of_cons in Hin as [Heq|Hin].
    + injection Heq as <- <-. by rewrite Hv, Hstat.
    + destruct (fileInfo w); [by apply IH |].
      destruct (Stat q); [by apply IH | done].
Qed.

(** When the extractor answers and every [Stat] that is needed succeeds, the
    call returns the results of the extractor, each with file details. *)
Lemma local_ReadTags_filled (paths : list string) (res : gmap string Info) :
  Parse paths = Ok res →
  (∀ p v, res !! p = Some v → fileInfo v = None → isErr (Stat p) = false) →
  ∃ m, local.ReadTags Parse Stat paths = Ok m ∧
       ∀ p, m !! p = filled Stat p <$> res !! p.
Proof.
  intros Hparse Hstat. unfold local.ReadTags. rewrite Hparse.
  destruct (fillFileInfo_ok (map_to_list res) res) as (m & Hm & Hlook).
  - apply NoDup_fst_map_to_list.
  - intros p v. apply elem_of_map_to_list.
  - intros p v Hin. apply Hstat. by apply elem_of_map_to_list.
  - exists m. split; [done |].
    intros p. rewrite Hlook. case_decide as Hin; [done |].
    destruct (res !! p) as [v|] eqn:Hp; [| done].
    exfalso. apply Hin. apply list_elem_of_fmap. exists (p, v).
    split; [done |]. by apply elem_of_map_to_list.
Qed.

End localfs.

(** C5 (amended). A path that fails makes [ReadTags] return that error and
    no results.  In the fake file system the first path that fails to parse
    ends the call with its error, whatever paths follow it and whatever was
    read before it; only a batch in which every path parses returns results,
    one for each path.  In the local storage an error of the extractor, or of
    [Stat] on a result lacking file details, ends the call with an error and
    no results; otherwise the call returns the results the extractor
    reported, for the paths it reported them for, with the file details
    filled in. *)
Theorem ReadTags_all_or_nothing {Json : Type} (ValidPath : string → bool)
    (Unmarshal : string → result (gmap string Json))
    (asFloat64 : Json → option Z) (asString : Json → option string)
    (Sprint : Json → string) (Base : string → string) (parseRFC3339 : string → Time)
    (Parse : list string → result (gmap string Info)) (Stat : string → result FileInfo)
    (ffs : storagetest.FakeFS) (paths : list string) :
  let parseFile :=
    storagetest.parseFile ValidPath Unmarshal asFloat64 asString Sprint Base parseRFC3339 ffs in
  let ReadTags :=
    storagetest.ReadTags ValidPath Unmarshal asFloat64 asString Sprint Base parseRFC3339 ffs in
  (∀ pre p post err,
     paths = pre ++ p :: post →
     (∀ q, q ∈ pre → isErr (parseFile q) = false) →
     parseFile p = Err err →
     ReadTags paths = Err err) ∧
  ((∀ q, q ∈ paths → isErr (parseFile q) = false) →
   ∃ m, ReadTags paths = Ok m ∧
        ∀ q, m !! q = if decide (q ∈ paths) then
                        match parseFile q with Ok i => Some i | Err _ => None end
                      else None) ∧
  (∀ err, Parse paths = Err err → local.ReadTags Parse Stat paths = Err err) ∧
  (∀ res p v err,
     Parse paths = Ok res → res !! p = Some v → fileInfo v = None →
     Stat p = Err err → isErr (local.ReadTags Parse Stat paths) = true) ∧
  (∀ res,
     Parse paths = Ok res →
     (∀ p v, res !! p = Some v → fileInfo v = None → isErr (Stat p) = false) →
     ∃ m, local.ReadTags Parse Stat paths = Ok m ∧
          ∀ p, m !! p = filled Stat p <$> res !! p).
Proof.
  intros parseFile ReadTags.
  destruct (fake_ReadTags_all_or_nothing ValidPath Unmarshal asFloat64 asString Sprint Base
              parseRFC3339 ffs paths) as [Hfail Hok].
  destruct (local_ReadTags_abort Parse Stat paths) as [Hparse Hstat].
  pose proof (local_ReadTags_filled Parse Stat paths) as Hfilled.
  done.
Qed.

(** The batch [a.mp3; b.mp3] on a file system that only holds [a.mp3]: the
    call fails with the error of [b.mp3]. *)
Lemma ReadTags_all_or_nothing_witness :
  examples.fakeReadTags examples.oneFile ["a.mp3"; "b.mp3"] = Err storagetest.ErrNotExist.
Proof.
  unfold examples.fakeReadTags.
  refine (proj1 (ReadTags_all_or_nothing (Json := unit) _ _ _ _ _ _ _
            (λ _, Ok ∅) (λ _, Err storagetest.ErrNotExist) examples.oneFile
            ["a.mp3"; "b.mp3"]) ["a.mp3"] "b.mp3" [] storagetest.ErrNotExist _ _ _).
  - reflexivity.
  - intros q Hq. apply list_elem_of_singleton in Hq as ->. reflexivity.
  - reflexivity.
Defined.

(** C5 as stated fails: [a.mp3] parses, yet the batch [a.mp3; b.mp3] returns
    no result for it, because [b.mp3] does not. *)
Lemma ReadTags_isolation_counterexample :
  isErr (examples.fakeParseFile examples.oneFile "a.mp3") = false ∧
  isErr (examples.fakeParseFile examples.oneFile "b.mp3") = true ∧
  ¬ ∃ m, examples.fakeReadTags examples.oneFile ["a.mp3"; "b.mp3"] = Ok m ∧
         is_Some (m !! "a.mp3").
Proof.
  split; [reflexivity |]. split; [reflexivity |].
  intros (m & Hm & _). vm_compute in Hm. discriminate Hm.
Qed.

End storage_facts.

(** ** The folder diff *)
Module diff_facts.
Import model metadata scanner2 reference.

Lemma filter_ext_in {A} (P Q : A → Prop) `{∀ x, Decision (P x)} `{∀ x, Decision (Q x)}
    (l : list A) :
  (∀ x, x ∈ l → P x ↔ Q x) → filter P l = filter Q l.
Proof.
  induction l as [|x l IH]; intros Hext; [done |].
  rewrite !filter_cons.
  assert (filter P l = filter Q l) as ->.
  { apply IH. intros y Hy. apply Hext. by right. }
  pose proof (Hext x ltac:(left)) as Hx.
  destruct (decide (P x)), (decide (Q x)); naive_solver.
Qed.

Lemma filter_cons_bool {A} (f : A → bool) (x : A) (l : list A) :
  filter (λ y, f y) (x :: l) = if f x then x :: filter (λ y, f y) l else filter (λ y, f y) l.
Proof. rewrite filter_cons. destruct (f x); by case_decide. Qed.




Lemma unlisted_lookup visits db (k : string) :
  unlisted visits db !! k = if decide (k ∈ visits.*1) then None else db !! k.
Proof.
  unfold unlisted. revert db.
  induction visits as [|[af de] visits IH]; intros db; simpl; [done |].
  rewrite IH. destruct (decide (k ∈ visits.*1)) as [Hin|Hnin].
  - by rewrite decide_True by (by right).
  - destruct (decide (k = af)) as [->|Hne].
    + rewrite decide_True by left. apply lookup_delete_eq.
    + rewrite decide_False by set_solver. by apply lookup_delete_ne.
Qed.

Section diff.
Variable Join : string → string → string.

Local Abbreviation diffFiles := (scanner2.diffFiles Join).
Local Abbreviation classify := (scanner2.classify Join).

(** When every [Info()] that is read succeeds, the walk returns the unlisted
    rows and appends the files to import in visiting order. *)
Lemma diffFiles_ok entryPath full visits db imp :
  NoDup visits.*1 →
  (∀ af de, (af, de) ∈ visits → readsInfo full db af → isErr (deInfo de) = false) →
  diffFiles entryPath full visits db imp =
    Ok (unlisted visits db,
        imp ++ ((λ e, Join entryPath e.1) <$> filter (λ e, importsFile full db e) visits)).
Proof.
  revert db imp. induction visits as [|[af de] visits IH]; intros db imp Hnd Hinfo.
  - simpl. by rewrite app_nil_r.
  - apply NoDup_cons in Hnd as [Hfresh Hnd].
    assert (filter (λ e, importsFile full (delete af db) e) visits =
            filter (λ e, importsFile full db e) visits) as Hfilter.
    { apply filter_ext_in. intros [k d] Hk. unfold importsFile. simpl.
      rewrite lookup_delete_ne; [done |].
      intros ->. apply Hfresh. apply list_elem_of_fmap. by exists (k, d). }
    assert (∀ imp', diffFiles entryPath full visits (delete af db) imp' =
      Ok (unlisted ((af, de) :: visits) db,
          imp' ++ ((λ e, Join entryPath e.1) <$> filter (λ e, importsFile full db e) visits)))
      as Hnext.
    { intros imp'. rewrite IH, Hfilter; [done | done |].
      intros k d Hk [Hfull Hsome]. apply (Hinfo k d); [by right |].
      split; [done |]. rewrite lookup_delete_ne in Hsome; [done |].
      intros ->. apply Hfresh. apply list_elem_of_fmap. by exists (k, d). }
    rewrite filter_cons_bool. unfold importsFile at 1. simpl.
    destruct (db !! af) as [row|] eqn:Hrow; simpl.
    + destruct full; simpl.
      * rewrite Hnext, <- app_assoc. done.
      * pose proof (Hinfo af de ltac:(left)) as Hde.
        destruct (deInfo de) as [info|err].
        -- destruct (After (ModTime info) (UpdatedAt row)); simpl.
           ++ rewrite Hnext, <- app_assoc. done.
           ++ by rewrite Hnext.
        -- discriminate Hde. split; [done | by rewrite Hrow].
    + rewrite Hnext, <- app_assoc. done.
Qed.



End diff.
End diff_facts.

(** ** The folder stage: classification *)
Module stage_facts.
Import model metadata scanner2 reference diff_facts.

Lemma importsFile_spec full (db : gmap string MediaFile) af de :
  importsFile full db (af, de) = true ↔
    db !! af = None ∨ full = true ∨
    ∃ row info, db !! af = Some row ∧ deInfo de = Ok info ∧
                (UpdatedAt row < ModTime info)%Z.
Proof.
  unfold importsFile. simpl. destruct (db !! af) as [row|] eqn:Hrow.
  - destruct full; simpl; [naive_solver |].
    destruct (deInfo de) as [info|err] eqn:Hde.
    + unfold After. rewrite bool_decide_eq_true. naive_solver.
    + naive_solver.
  - naive_solver.
Qed.

Lemma visits_lookup (audioFiles : gmap string DirEntry) visits af de :
  visits ≡ₚ map_to_list audioFiles →
  (af, de) ∈ visits ↔ audioFiles !! af = Some de.
Proof. intros ->. apply elem_of_map_to_list. Qed.

Lemma visits_NoDup (audioFiles : gmap string DirEntry) visits :
  visits ≡ₚ map_to_list audioFiles → NoDup visits.*1.
Proof. intros ->. apply NoDup_fst_map_to_list. Qed.

Lemma visits_keys (audioFiles : gmap string DirEntry) visits k :
  visits ≡ₚ map_to_list audioFiles → k ∈ visits.*1 ↔ is_Some (audioFiles !! k).
Proof.
  intros Hperm. rewrite list_elem_of_fmap. split.
  - intros ([af de] & -> & Hin). apply (visits_lookup _ _ _ _ Hperm) in Hin. by eexists.
  - intros [de Hde]. exists (k, de). split; [done |]. by apply (visits_lookup _ _ _ _ Hperm).
Qed.

(** The diff in terms of listing names: for any order in which the listing
    is visited, and provided the [Info()] calls that are made succeed, the
    joined path of a listed file is put on the import list exactly when no row
    is stored under the listing name of the file, or the rescan is a full one,
    or the file was modified after the row stored under its listing name was
    last updated; nothing else is imported; and the missing list holds
    exactly the rows stored under a name that is not listed. *)
Lemma classify_by_listing_name (Join : string → string → string)
    (entryPath : string) (full : bool) (audioFiles : gmap string DirEntry)
    (visits : list (string * DirEntry)) (mfs : list MediaFile) :
  let dbTracks := slice.ToMap mfs (λ mf, (Path mf, mf)) in
  visits ≡ₚ map_to_list audioFiles →
  (∀ a b, is_Some (audioFiles !! a) → is_Some (audioFiles !! b) →
          Join entryPath a = Join entryPath b → a = b) →
  (∀ af de, audioFiles !! af = Some de → readsInfo full dbTracks af →
            isErr (deInfo de) = false) →
  ∃ filesToImport missing,
    classify Join entryPath full visits mfs = Ok (filesToImport, missing) ∧
    (∀ af de, audioFiles !! af = Some de →
       Join entryPath af ∈ filesToImport ↔
         dbTracks !! af = None ∨ full = true ∨
         ∃ row info, dbTracks !! af = Some row ∧ deInfo de = Ok info ∧
                     (UpdatedAt row < ModTime info)%Z) ∧
    (∀ p, p ∈ filesToImport → ∃ af, is_Some (audioFiles !! af) ∧ p = Join entryPath af) ∧
    (∀ row, row ∈ missing ↔ ∃ k, dbTracks !! k = Some row ∧ audioFiles !! k = None).
Proof.
  intros dbTracks Hperm Hinj Hinfo.
  pose proof (visits_NoDup _ _ Hperm) as Hnd.
  unfold classify. fold dbTracks.
  rewrite diffFiles_ok; [| done |].
  2:{ intros af de Hin. apply Hinfo. by apply (visits_lookup _ _ _ _ Hperm). }
  eexists _, _. split; [done |]. simpl. split; [| split].
  - intros af de Hlook. rewrite <- importsFile_spec.
    rewrite list_elem_of_fmap. split.
    + intros ([k d] & Heq & Hin). apply list_elem_of_filter in Hin as [Himp Hin].
      simpl in Heq. apply (visits_lookup _ _ _ _ Hperm) in Hin.
      assert (af = k) as <- by (apply Hinj; [by eexists | by eexists | done]).
      assert (d = de) as -> by congruence. by apply Is_true_true.
    + intros Himp. exists (af, de). split; [done |].
      apply list_elem_of_filter. split; [by apply Is_true_true |].
      by apply (visits_lookup _ _ _ _ Hperm).
  - intros p Hp. apply list_elem_of_fmap in Hp as ([k d] & -> & Hin).
    apply list_elem_of_filter in Hin as [_ Hin].
    apply (visits_lookup _ _ _ _ Hperm) in Hin. exists k. split; [by eexists | done].
  - intros row. rewrite list_elem_of_fmap. split.
    + intros ([k r] & -> & Hin). apply elem_of_map_to_list in Hin.
      rewrite unlisted_lookup in Hin. case_decide as Hk; [done |].
      exists k. split; [done |]. apply eq_None_not_Some. intros Hsome.
      apply Hk. by apply (visits_keys _ _ _ Hperm).
    + intros (k & Hrow & Hnone). exists (k, row). split; [done |].
      apply elem_of_map_to_list. rewrite unlisted_lookup, decide_False; [done |].
      intros Hk. apply (visits_keys _ _ _ Hperm) in Hk. rewrite Hnone in Hk.
      by destruct Hk.
Qed.

Lemma classify_by_listing_name_witness :
  ∃ filesToImport missing,
    classify examples.joinPath "." false (map_to_list examples.rootListing)
      examples.rootRows = Ok (filesToImport, missing) ∧
    ("new.mp3" ∈ filesToImport ∧ "touched.mp3" ∈ filesToImport ∧
     "old.mp3" ∉ filesToImport) ∧
    (∀ row, row ∈ missing ↔ row = examples.rowAt "gone.mp3" 5%Z).
Proof.
  destruct (classify_by_listing_name examples.joinPath "." false
              examples.rootListing (map_to_list examples.rootListing) examples.rootRows)
    as (imp & miss & Hrun & Himp & _ & Hmiss).
  - reflexivity.
  - intros a b _ _ Heq. exact Heq.
  - intros af de Hlook _.
    assert (map_Forall (λ _ d, isErr (deInfo d) = false) examples.rootListing) as Hall.
    { apply (bool_decide_unpack _). vm_compute. exact I. }
    exact (Hall af de Hlook).
  - exists imp, miss. split; [exact Hrun |]. split.
    + split; [| split].
      * apply (Himp "new.mp3" (examples.fileAt "new.mp3" 1%Z)); [reflexivity |].
        left. reflexivity.
      * apply (Himp "touched.mp3" (examples.fileAt "touched.mp3" 9%Z)); [reflexivity |].
        right. right. eexists _, _. split; [reflexivity |]. split; [reflexivity |].
        simpl. lia.
      * intros Hin.
        apply (Himp "old.mp3" (examples.fileAt "old.mp3" 5%Z)) in Hin; [| reflexivity].
        destruct Hin as [Hn | [Hf | (row & info & Hrow & Hinfo & Hlt)]].
        -- vm_compute in Hn. discriminate Hn.
        -- discriminate Hf.
        -- vm_compute in Hrow. injection Hrow as <-.
           vm_compute in Hinfo. injection Hinfo as <-. simpl in Hlt. lia.
    + revert Hrun. vm_compute. intros [= <- <-]. intros row. split.
      * intros Hin. apply list_elem_of_singleton in Hin. exact Hin.
      * intros ->. apply list_elem_of_singleton. reflexivity.
Defined.


(** C1. The diff does not classify a file by its path.  In folder [A] the
    file [t.mp3] is listed with modification time 1, and the rows of the
    folder hold one for its path [A/t.mp3], last updated at 5: the path of
    the file has a row, the file was not modified after the row was updated,
    and the rescan is not a full one.  The diff still puts [A/t.mp3] on the
    import list, because it looks for the row under the listing name [t.mp3],
    where there is none. *)
Theorem unchanged_file_is_reimported :
  let file := examples.fileAt "t.mp3" 1%Z in
  let row := examples.rowAt "A/t.mp3" 5%Z in
  let fullPath := examples.joinPath "A" "t.mp3" in
  examples.listingA !! "t.mp3" = Some file ∧
  (row ∈ examples.rowsA ∧ Path row = fullPath) ∧
  (∃ info, deInfo file = Ok info ∧ After (ModTime info) (UpdatedAt row) = false) ∧
  slice.ToMap examples.rowsA (λ mf, (Path mf, mf)) !! "t.mp3" = None ∧
  ∃ filesToImport missing,
    classify examples.joinPath "A" false (map_to_list examples.listingA) examples.rowsA
      = Ok (filesToImport, missing) ∧
    fullPath ∈ filesToImport.
Proof.
  intros file row fullPath.
  split; [reflexivity |]. split; [split; [left | reflexivity] |].
  split; [eexists; split; reflexivity |]. split; [reflexivity |].
  eexists _, _. split; [vm_compute; reflexivity |]. left.
Qed.

(** C10. The diff looks rows up under the file name of the listing while
    the import list and the rows carry the path joined with the folder: in
    folder [A], the unchanged file [t.mp3] stored as [A/t.mp3] is put on the
    import list as [A/t.mp3] and its own row is put on the missing list. *)
Theorem diff_imports_and_misses_same_path :
  classify examples.joinPath "A" false (map_to_list examples.listingA) examples.rowsA
    = Ok (["A/t.mp3"], [examples.rowAt "A/t.mp3" 5%Z]) ∧
  Path (examples.rowAt "A/t.mp3" 5%Z) = "A/t.mp3".
Proof. split; vm_compute; reflexivity. Qed.





End stage_facts.

(** ** The folder stage: tag extraction *)
Module load_facts.
Import model metadata scanner2 reference.

Section load.
Context {W : Type}.
Variable ReadTags : W → list string → W * result (gmap string Info).
Variable ToMediaFile : string → Info → MediaFile.
Variable FlattenAll : string → Info → list Tag.

Local Abbreviation loadChunk := (scanner2.loadChunk (traced ReadTags) ToMediaFile FlattenAll).

(** Every round of the closure asks the extractor for the whole list. *)
Lemma loadChunk_calls entry toImport st chunk :
  (lsWorld (loadChunk entry toImport st chunk).1).2 = (lsWorld st).2 ++ [toImport].
Proof.
  unfold scanner2.loadChunk, traced. simpl.
  by destruct (ReadTags (lsWorld st).1 toImport) as [w [m|e]].
Qed.

Lemma rangeChunks_calls entry toImport chunks st :
  ∃ n, n ≤ length chunks ∧
       (lsWorld (slice.rangeChunks (loadChunk entry toImport) st chunks).1).2 =
         (lsWorld st).2 ++ replicate n toImport ∧
       ((slice.rangeChunks (loadChunk entry toImport) st chunks).2 = None →
        n = length chunks).
Proof.
  revert st. induction chunks as [|chunk chunks IH]; intros st; simpl.
  - exists 0. by rewrite app_nil_r.
  - pose proof (loadChunk_calls entry toImport st chunk) as Hcall.
    destruct (loadChunk entry toImport st chunk) as [st' [err|]] eqn:Hstep; simpl in *.
    + exists 1. split; [lia |]. split; [| done]. by rewrite Hcall.
    + destruct (IH st') as (n & Hn & Hcalls & Hall).
      exists (S n). split; [lia |]. split.
      * rewrite Hcalls, Hcall, <- app_assoc. done.
      * intros Hnone. by rewrite Hall.
Qed.

(** The batches handed to the extractor during one [loadTagsFromFiles]: as
    many copies of the whole list as chunks were reached. *)
Lemma loadTagsFromFiles_calls w entry toImport :
  let run :=
    scanner2.loadTagsFromFiles (traced ReadTags) ToMediaFile FlattenAll (w, []) entry
      toImport in
  ∃ n, n ≤ length (slice.BreakUp filesBatchSize toImport) ∧
       (lsWorld run.1).2 = replicate n toImport ∧
       (run.2 = None → n = length (slice.BreakUp filesBatchSize toImport)).
Proof.
  intros run. subst run. unfold scanner2.loadTagsFromFiles, slice.RangeByChunks.
  apply (rangeChunks_calls entry toImport _ (mkLoadState (w, []) [] [] ∅)).
Qed.

End load.

Section failure.
Context {W : Type}.
Variable Join : string → string → string.
Variable GetByFolder : string → result (list MediaFile).
Variable ReadTags : W → list string → W * result (gmap string Info).
Variable ToMediaFile : string → Info → MediaFile.
Variable FlattenAll : string → Info → list Tag.

Local Abbreviation loadTags := (scanner2.loadTagsFromFiles ReadTags ToMediaFile FlattenAll).
Local Abbreviation stage :=
  (scanner2.processFolder Join GetByFolder ReadTags ToMediaFile FlattenAll).

(** An extraction failure is logged and swallowed: the stage returns the
    entry and no error.  The entry carries the missing tracks of the diff and
    whatever tracks and tags [loadTagsFromFiles] returned next to its error. *)
Lemma extraction_failure_not_propagated visits w entry mfs imp miss st err :
  GetByFolder (id entry) = Ok mfs →
  classify Join (path entry) (fullRescan (job entry)) visits mfs = Ok (imp, miss) →
  imp ≠ [] →
  loadTags w (setMissingTracks entry miss) imp = (st, Some err) →
  stage visits w entry =
    mkOutcome (lsWorld st)
      (lsLogs st ++ [mkLog LevelWarn "Scanner: Error loading tags from files. Skipping"])
      (Some (setTracksTags (setMissingTracks entry miss) (lsTracks st)
               (map_to_list (lsTags st)).*2))
      None.
Proof.
  intros Hdb Hdiff Himp Hload. unfold scanner2.processFolder.
  rewrite Hdb, Hdiff. rewrite bool_decide_eq_true_2 by (destruct imp; simpl; [done | lia]).
  by rewrite Hload.
Qed.

(** When the call made for the first batch fails, no track and no tag is
    returned. *)
Lemma first_call_failure w entry toImport err :
  toImport ≠ [] →
  (ReadTags w toImport).2 = Err err →
  ∃ st, loadTags w entry toImport = (st, Some err) ∧
        lsTracks st = [] ∧ lsTags st = ∅ ∧
        lsLogs st =
          [mkLog LevelWarn "Scanner: Error extracting metadata from files. Skipping"].
Proof.
  intros Hne Hfail. unfold scanner2.loadTagsFromFiles, slice.RangeByChunks, slice.BreakUp.
  destruct toImport as [|p rest]; [done |]. simpl length.
  cbn [slice.BreakUpFuel slice.rangeChunks]. unfold scanner2.loadChunk at 1.
  cbn [lsWorld lsLogs lsTracks lsTags].
  destruct (ReadTags w (p :: rest)) as [w' [m|e]]; simpl in Hfail; [done |].
  injection Hfail as ->. eexists. split; [done |]. done.
Qed.

End failure.

(** C3. With 101 files to import the list is cut into a batch of 100 paths
    and a batch of one, but the extractor is handed the whole list of 101
    paths for each of the two batches: every path is extracted twice and 202
    tracks are produced. *)
Theorem loadTagsFromFiles_rereads_whole_list :
  let run :=
    loadTagsFromFiles examples.recordCalls examples.trackOf (λ _ _, []) []
      examples.entry101 examples.names101 in
  length examples.names101 = 101 ∧
  slice.BreakUp filesBatchSize examples.names101 =
    [take 100 examples.names101; drop 100 examples.names101] ∧
  lsWorld run.1 = [examples.names101; examples.names101] ∧
  run.2 = None ∧
  length (lsTracks run.1) = 202.
Proof. vm_compute. done. Qed.

(** C6. In the folder of 101 new files, the extractor answers the call made
    for the first batch and fails on the call made for the second: the stage
    logs the failure and returns no error, yet the entry it returns carries
    the 101 tracks read by the first call. *)
Theorem extraction_failure_keeps_partial_tracks :
  let o :=
    processFolder examples.joinPath (λ _, Ok []) examples.failsLater examples.trackOf
      (λ _ _, []) (map_to_list examples.listing101) 0 examples.entry101 in
  world o = 2 ∧
  errOut o = None ∧
  logs o = [mkLog LevelWarn "Scanner: Error extracting metadata from files. Skipping";
            mkLog LevelWarn "Scanner: Error loading tags from files. Skipping"] ∧
  (length ∘ tracks <$> entryOut o) = Some 101.
Proof. vm_compute. done. Qed.

End load_facts.

(** ** The media file repository *)
Module persistence_facts.
Import model persistence reference.

Lemma elem_of_chunk {A} (n : nat) (items chunk : list A) (x : A) :
  0 < n → chunk ∈ slice.BreakUp n items → x ∈ chunk → x ∈ items.
Proof.
  intros Hn Hchunk Hx. rewrite <- (slice_facts.BreakUp_concat n items Hn).
  induction (slice.BreakUp n items) as [|c cs IH]; [by apply elem_of_nil in Hchunk |].
  simpl. apply elem_of_app. apply elem_of_cons in Hchunk as [<-|Hcs]; [by left |].
  right. by apply IH.
Qed.

(** Every item is in one of the chunks. *)
Lemma elem_of_some_chunk {A} (n : nat) (items : list A) (x : A) :
  0 < n → x ∈ items → ∃ chunk, chunk ∈ slice.BreakUp n items ∧ x ∈ chunk.
Proof.
  intros Hn Hx. rewrite <- (slice_facts.BreakUp_concat n items Hn) in Hx.
  induction (slice.BreakUp n items) as [|c cs IH]; [by apply elem_of_nil in Hx |].
  simpl in Hx. apply elem_of_app in Hx as [Hx|Hx].
  - exists c. split; [left | done].
  - destruct (IH Hx) as (chunk & Hc & Hin). exists chunk. split; [by right | done].
Qed.

(** *** [MarkMissing] *)

Lemma updateMissing_markRow missing now chunk rows :
  updateMissing missing now chunk rows = markRow missing now chunk <$> rows.
Proof. done. Qed.

Lemma markRow_id missing now chunk mf :
  mfID (markRow missing now chunk mf) = mfID mf.
Proof. unfold markRow. by case_decide. Qed.

Lemma markRow_settled missing now chunk mf :
  Missing mf = missing → markRow missing now chunk mf = mf.
Proof.
  intros Hm. unfold markRow. rewrite decide_False; [done |].
  intros [_ Hneg]. rewrite Hm in Hneg. by destruct missing.
Qed.

Lemma markRow_sets missing now chunk mf :
  mfID mf ∈ chunk → Missing (markRow missing now chunk mf) = missing.
Proof.
  intros Hin. unfold markRow. case_decide as Hsel; [done |].
  destruct (Missing mf) eqn:Hm, missing; try done; exfalso; apply Hsel; by split.
Qed.

Section mark.
Variable fault : nat → option error.
Variable now : nat → Time.
Variable missing : bool.

Local Abbreviation run := (slice.rangeChunks (markChunk fault now missing)).

Lemma markChunk_step (st : markState) (c : list string) :
  (∃ err, fault (msCount st) = Some err ∧
          ∃ lg, markChunk fault now missing st c =
                  (mkMarkState (msDB st) (S (msCount st)) lg, Some err)) ∨
  (fault (msCount st) = None ∧
   ∃ lg, markChunk fault now missing st c =
           (mkMarkState
              (mkDB (markRow missing (now (msCount st)) c <$> media_file (msDB st))
                 (library (msDB st)))
              (S (msCount st)) lg, None)).
Proof.
  unfold markChunk. destruct (fault (msCount st)) as [err|].
  - left. eauto.
  - right. split; [done |]. case_bool_decide; eauto.
Qed.

(** The rows after a run are the rows before it, each one transformed by the
    same function [g]; [g] keeps identifiers, leaves alone the rows whose flag
    is already the wanted one, only ever applies the update of one of the
    chunks, and, when the run ends without error, has set the flag of every
    row named in a chunk. *)
Lemma run_rows (chunks : list (list string)) (st : markState) :
  ∃ g : MediaFile → MediaFile,
    media_file (msDB (run st chunks).1) = g <$> media_file (msDB st) ∧
    library (msDB (run st chunks).1) = library (msDB st) ∧
    (∀ row, mfID (g row) = mfID row) ∧
    (∀ row, Missing row = missing → g row = row) ∧
    (∀ row, g row = row ∨
            ∃ chunk t, chunk ∈ chunks ∧ selected missing chunk row ∧
                       g row = setMissing missing t row) ∧
    ((run st chunks).2 = None →
     ∀ row chunk, chunk ∈ chunks → mfID row ∈ chunk → Missing (g row) = missing).
Proof.
  revert st. induction chunks as [|c cs IH]; intros st.
  - exists id. simpl. rewrite list_fmap_id. repeat split; try done; [by left |].
    intros _ row chunk Hc. by apply elem_of_nil in Hc.
  - simpl.
    destruct (markChunk_step st c) as [(err & Hfault & lg & ->) | (Hfault & lg & ->)].
    + exists id. simpl. rewrite list_fmap_id. repeat split; try done. by left.
    + set (rows1 := markRow missing (now (msCount st)) c <$> media_file (msDB st)).
      destruct (IH (mkMarkState (mkDB rows1 (library (msDB st))) (S (msCount st)) lg))
        as (g & Hrows & Hlib & Hid & Hfix & Hstep & Hdone).
      simpl in *.
      exists (g ∘ markRow missing (now (msCount st)) c).
      split; [by rewrite Hrows, list_fmap_compose |]. split; [done |].
      split; [intros row; simpl; by rewrite Hid, markRow_id |].
      split; [intros row Hm; simpl; by rewrite markRow_settled, Hfix |].
      split.
      * intros row. simpl. unfold markRow at 1 2. case_decide as Hsel.
        -- right. exists c, (now (msCount st)). split; [left |]. split; [done |].
           by apply Hfix.
        -- destruct (Hstep row) as [Heq | (chunk & t & Hc & Hs & Heq)]; [by left |].
           right. exists chunk, t. split; [by right | done].
      * intros Hnone row chunk Hc Hin. simpl.
        apply elem_of_cons in Hc as [->|Hc].
        -- rewrite Hfix; by apply markRow_sets.
        -- apply (Hdone Hnone _ chunk Hc). by rewrite markRow_id.
Qed.

(** Without a storage fault the run returns no error: a chunk that updates
    no row logs an error but returns the nil [err]. *)
Lemma run_no_fault (chunks : list (list string)) (st : markState) :
  (∀ n, fault n = None) → (run st chunks).2 = None.
Proof.
  intros Hnf. revert st. induction chunks as [|c cs IH]; intros st; [done |].
  simpl. destruct (markChunk_step st c)
    as [(err & Hfault & lg & ->) | (Hfault & lg & ->)]; [| apply IH].
  by rewrite Hnf in Hfault.
Qed.

End mark.



(** *** [GetMissingAndMatching] *)

(** Grouping by identifier keeps a row exactly when its identifier was not
    seen before, provided an identifier names one row only. *)
Lemma elem_of_groupByID (seen : gset string) (rows : list MediaFile) (x : MediaFile) :
  (∀ a b, a ∈ rows → b ∈ rows → mfID a = mfID b → a = b) →
  x ∈ groupByID seen rows ↔ (mfID x ∉ seen) ∧ x ∈ rows.
Proof.
  revert seen. induction rows as [|mf rows IH]; intros seen Hkey; simpl.
  - rewrite !elem_of_nil. naive_solver.
  - assert (∀ a b, a ∈ rows → b ∈ rows → mfID a = mfID b → a = b) as Hkey'.
    { intros a b Ha Hb. apply Hkey; by right. }
    case_decide as Hseen.
    + rewrite IH by done. rewrite elem_of_cons. naive_solver.
    + rewrite elem_of_cons, IH by done. rewrite elem_of_cons. split.
      * intros [-> | [Hx Hin]]; [by split; [| left] |].
        split; [set_solver | by right].
      * intros [Hx [-> | Hin]]; [by left |].
        destruct (decide (mfID x = mfID mf)) as [Heq|Hne].
        -- left. apply Hkey; [by right | left | done].
        -- right. split; [set_solver | done].
Qed.

Lemma elem_of_joinLibrary (db : DB) (mf : MediaFile) (l : Library) :
  (mf, l) ∈ joinLibrary db ↔
    mf ∈ media_file db ∧ l ∈ library db ∧ libID l = LibraryID mf.
Proof.
  unfold joinLibrary. rewrite list_elem_of_bind. split.
  - intros (m & Hin & Hm). apply list_elem_of_fmap in Hin as (l' & Heq & Hl).
    injection Heq as -> ->. apply list_elem_of_filter in Hl as [? ?]. done.
  - intros (Hm & Hl & Heq). exists mf. split; [| done].
    apply list_elem_of_fmap. exists l. split; [done |]. by apply list_elem_of_filter.
Qed.

Lemma elem_of_missingPIDs (db : DB) (libId : Z) (pid : string) :
  pid ∈ missingPIDs db libId ↔
    ∃ m, m ∈ media_file db ∧ Missing m = true ∧ LibraryID m = libId ∧ PID m = pid.
Proof.
  unfold missingPIDs. rewrite list_elem_of_fmap. split.
  - intros (m & -> & Hin). apply list_elem_of_filter in Hin as [[? ?] ?]. eauto.
  - intros (m & Hin & Hm & Hl & <-). exists m. split; [done |].
    by apply list_elem_of_filter.
Qed.

Lemma groupByID_sub (seen : gset string) (rows : list MediaFile) (x : MediaFile) :
  x ∈ groupByID seen rows → x ∈ rows ∧ mfID x ∉ seen.
Proof.
  revert seen. induction rows as [|mf rows IH]; intros seen; simpl.
  - by intros ?%elem_of_nil.
  - case_decide as Hseen.
    + intros Hx. destruct (IH _ Hx). split; [by right | done].
    + intros [->|Hx]%elem_of_cons; [split; [left | done] |].
      destruct (IH _ Hx) as [? Hn]. split; [by right | set_solver].
Qed.

Lemma groupByID_NoDup (seen : gset string) (rows : list MediaFile) :
  NoDup (mfID <$> groupByID seen rows).
Proof.
  revert seen. induction rows as [|mf rows IH]; intros seen; simpl; [constructor |].
  case_decide as Hseen; [apply IH |].
  rewrite fmap_cons. constructor; [| apply IH].
  intros Hin. apply list_elem_of_fmap in Hin as (y & Hy & Hin).
  apply groupByID_sub in Hin as [_ Hn]. apply Hn. rewrite Hy. set_solver.
Qed.

#[local] Instance pidLe_total : Total pidLe.
Proof. intros a b. unfold pidLe. apply total, _. Qed.

(** C2 (amended). With [media_file.id] a key, [GetMissingAndMatching(libId)]
    returns, ordered by [pid] and each once, exactly the rows that have a
    library row, share their [pid] with a row flagged missing in library
    [libId], and are flagged missing themselves or were created after the
    last scan of their own library started.  The library of a returned row is
    not compared with [libId]; when library [libId] has a row, every row
    missing in [libId] is returned. *)
Theorem GetMissingAndMatching_rows (db : DB) (libId : Z) :
  NoDup (mfID <$> media_file db) →
  ∃ res, GetMissingAndMatching None db libId = Ok res ∧
         Sorted pidLe res ∧
         NoDup (mfID <$> res) ∧
         (∀ mf, mf ∈ res ↔
            mf ∈ media_file db ∧
            (∃ m, m ∈ media_file db ∧ Missing m = true ∧ LibraryID m = libId ∧
                  PID m = PID mf) ∧
            ∃ l, l ∈ library db ∧ libID l = LibraryID mf ∧
                 (Missing mf = true ∨ (LastScanStartedAt l < CreatedAt mf)%Z)) ∧
         ((∃ l, l ∈ library db ∧ libID l = libId) →
          ∀ mf, mf ∈ media_file db → Missing mf = true → LibraryID mf = libId →
                mf ∈ res).
Proof.
  intros Hkey. eexists. split; [done |]. split; [apply Sorted_merge_sort, _ |].
  split; [rewrite merge_sort_Permutation; apply groupByID_NoDup |].
  assert (∀ mf, mf ∈ merge_sort pidLe
                  (groupByID ∅ (filter (matches (missingPIDs db libId)) (joinLibrary db)).*1) ↔
            mf ∈ media_file db ∧
            (∃ m, m ∈ media_file db ∧ Missing m = true ∧ LibraryID m = libId ∧
                  PID m = PID mf) ∧
            ∃ l, l ∈ library db ∧ libID l = LibraryID mf ∧
                 (Missing mf = true ∨ (LastScanStartedAt l < CreatedAt mf)%Z)) as Hmem.
  { intros mf. rewrite merge_sort_Permutation, elem_of_groupByID.
    - rewrite list_elem_of_fmap. split.
      + intros (_ & [m l] & -> & Hin). apply list_elem_of_filter in Hin as [[Hpid Hm] Hin].
        apply elem_of_joinLibrary in Hin as (Hmf & Hl & Heq). simpl in *.
        split; [done |]. split; [by apply elem_of_missingPIDs |].
        exists l. split; [done |]. split; [done |].
        destruct Hm as [? | Hafter]; [by left | right].
        unfold After in Hafter. by apply bool_decide_eq_true in Hafter.
      + intros (Hmf & Hpid & l & Hl & Heq & Hm). split; [set_solver |].
        exists (mf, l). split; [done |]. apply list_elem_of_filter. split.
        * split; [by apply elem_of_missingPIDs |]. simpl.
          destruct Hm as [? | Hafter]; [by left | right].
          unfold After. by apply bool_decide_eq_true.
        * by apply elem_of_joinLibrary.
    - intros a b Ha Hb Hab.
      assert (∀ x, x ∈ (filter (matches (missingPIDs db libId)) (joinLibrary db)).*1 →
                   x ∈ media_file db) as Hsub.
      { intros x Hx. apply list_elem_of_fmap in Hx as ([m l] & -> & Hin).
        apply list_elem_of_filter in Hin as [_ Hin].
        by apply elem_of_joinLibrary in Hin as (? & _). }
      apply Hsub in Ha, Hb.
      apply list_elem_of_lookup in Ha as [i Hi], Hb as [j Hj].
      assert (i = j) as ->; [| congruence].
      eapply NoDup_lookup; [exact Hkey | |]; rewrite list_lookup_fmap.
      * by rewrite Hi.
      * by rewrite Hj, Hab. }
  split; [exact Hmem |].
  intros (l & Hl & Heq) mf Hin Hmiss Hlib. apply Hmem. split; [done |].
  split; [by exists mf |]. exists l. split; [done |]. split; [congruence | by left].
Qed.

(** Asked for library 1 of the example database, the query returns the
    missing track [a] of that library. *)
Lemma GetMissingAndMatching_rows_witness :
  ∃ res, GetMissingAndMatching None examples.twoLibraries 1 = Ok res ∧
         NoDup (mfID <$> res) ∧
         mkMediaFile "a" "p" 1 "f1" "x/a.mp3" "A" true 5%Z 5%Z ∈ res.
Proof.
  destruct (GetMissingAndMatching_rows examples.twoLibraries 1)
    as (res & Hrun & _ & Hnd & _ & Hmissing).
  - apply (bool_decide_unpack _). vm_compute. exact I.
  - exists res. split; [exact Hrun |]. split; [exact Hnd |]. apply Hmissing.
    + exists (mkLibrary 1 "one" "/one" 10%Z). split; [left | reflexivity].
    + apply (bool_decide_unpack _). vm_compute. exact I.
    + reflexivity.
    + reflexivity.
Defined.

(** C2 as stated fails: asked for library 1, the query also returns the
    track [b], which belongs to library 2. *)
Lemma GetMissingAndMatching_other_library_counterexample :
  ∃ res mf, GetMissingAndMatching None examples.twoLibraries 1 = Ok res ∧
            mf ∈ res ∧ mfID mf = "b" ∧ LibraryID mf = 2%Z ∧ LibraryID mf ≠ 1%Z.
Proof.
  eexists _, (mkMediaFile "b" "p" 2 "f2" "y/b.mp3" "B" false 20%Z 20%Z).
  split; [vm_compute; reflexivity |].
  split; [right; left |]. done.
Qed.

End persistence_facts.

(** ** Roles as text *)
Module role_facts.
Import model role_text reference2.

Lemma allRoles_known : allRoles = list_to_map ((λ r, (role r, r)) <$> knownRoles).
Proof. done. Qed.

Lemma knownRoles_lookup (r : Role) : r ∈ knownRoles → RoleFromString (role r) = r.
Proof.
  unfold knownRoles. rewrite !elem_of_cons, elem_of_nil.
  intros H. repeat (destruct H as [-> | H]; [by vm_compute |]). done.
Qed.

Lemma knownRoles_valid (r : Role) : r ∈ knownRoles → r ≠ RoleInvalid.
Proof.
  unfold knownRoles. rewrite !elem_of_cons, elem_of_nil.
  intros H. repeat (destruct H as [-> | H]; [done |]). done.
Qed.

Lemma RoleFromString_cases (text : string) :
  (∃ r, r ∈ knownRoles ∧ role r = text ∧ RoleFromString text = r) ∨
  ((∀ r, r ∈ knownRoles → role r ≠ text) ∧ RoleFromString text = RoleInvalid).
Proof.
  unfold RoleFromString. destruct (allRoles !! text) as [r|] eqn:Hlook.
  - left. exists r. rewrite allRoles_known in Hlook.
    apply elem_of_list_to_map_2, list_elem_of_fmap in Hlook as (r' & Heq & Hin).
    injection Heq as -> ->. done.
  - right. split; [| done]. intros r Hin <-.
    rewrite allRoles_known in Hlook. apply not_elem_of_list_to_map in Hlook.
    apply Hlook. rewrite <- list_fmap_compose. apply list_elem_of_fmap. by exists r.
Qed.

(** X1. Roles survive the trip through text: a registered role is read back
    from its own name; whatever [UnmarshalText] accepts is a registered role
    spelled exactly as the text; every other text, the name of [RoleInvalid]
    included, is rejected; and [RoleFromString] maps it to [RoleInvalid]. *)
Theorem role_text_round_trip :
  (∀ r, r ∈ knownRoles →
        MarshalText r = Ok (String r) ∧ UnmarshalText (String r) = Ok r) ∧
  (∀ text r, UnmarshalText text = Ok r → r ∈ knownRoles ∧ String r = text) ∧
  (∀ text, (∀ r, r ∈ knownRoles → String r ≠ text) →
           RoleFromString text = RoleInvalid ∧ isErr (UnmarshalText text) = true) ∧
  isErr (UnmarshalText (String RoleInvalid)) = true.
Proof.
  split; [| split; [| split]].
  - intros r Hin. split; [done |]. unfold UnmarshalText, String.
    rewrite knownRoles_lookup by done.
    by rewrite decide_False by (by apply knownRoles_valid).
  - intros text r. unfold UnmarshalText, String.
    destruct (RoleFromString_cases text) as [(r' & Hin & Hname & ->) | [_ ->]].
    + case_decide; [done |]. by intros [= <-].
    + by rewrite decide_True.
  - intros text Hnone. unfold UnmarshalText.
    destruct (RoleFromString_cases text) as [(r' & Hin & Hname & _) | [_ ->]].
    + by destruct (Hnone r' Hin).
    + by rewrite decide_True.
  - by vm_compute.
Qed.

End role_facts.

(** ** More on participations *)
Module participations_more.
Import model reference reference2 participations_facts.

Lemma elem_of_artistIDs_fmap (x : string) (artists : list Artist) :
  x ∈ artistIDs artists ↔ x ∈ ID <$> artists.
Proof. unfold artistIDs. apply elem_of_list_to_set. Qed.

Lemma addList_NoDup (cur artists : list Artist) :
  NoDup (ID <$> cur) → NoDup (ID <$> addList cur artists).
Proof.
  revert cur. induction artists as [|a artists IH]; intros cur Hnd; simpl; [done |].
  case_decide as Hin; [by apply IH |].
  apply IH. rewrite fmap_app. apply NoDup_app. split; [done |].
  split; [| apply NoDup_singleton].
  intros x Hx Hxa. apply list_elem_of_singleton in Hxa as ->.
  by apply Hin, elem_of_artistIDs_fmap.
Qed.

(** What [addList] appends: a sublist of the new artists, and afterwards
    every new artist's identifier is present. *)
Lemma addList_extends (cur artists : list Artist) :
  ∃ ext, addList cur artists = cur ++ ext ∧ ext `sublist_of` artists.
Proof.
  revert cur. induction artists as [|a artists IH]; intros cur; simpl.
  - exists []. by rewrite app_nil_r.
  - case_decide as Hin.
    + destruct (IH cur) as (ext & -> & Hsub). exists ext. split; [done |].
      by apply sublist_cons.
    + destruct (IH (cur ++ [a])) as (ext & -> & Hsub). exists (a :: ext).
      split; [by rewrite <- app_assoc |]. by apply sublist_skip.
Qed.

(** The identifiers under one role stay distinct through [Add]. *)
Lemma Add_NoDup_role (r r' : Role) (artists : list Artist) (p : Participations) :
  NoDup (ID <$> p !!! r') → NoDup (ID <$> Add r artists p !!! r').
Proof.
  intros Hnd. destruct (decide (r = r')) as [<-|Hne].
  - rewrite Add_lookup_total. by apply addList_NoDup.
  - by rewrite Add_lookup_total_ne.
Qed.

(** X2. [Add] keeps the de-duplication of a [Participations]: when no
    identifier occurs twice under any role before the call, none does
    after it. *)
Theorem Add_deduplicated (r : Role) (artists : list Artist) (p : Participations) :
  deduplicated p → deduplicated (Add r artists p).
Proof. intros Hp r'. apply Add_NoDup_role, Hp. Qed.

Lemma Add_deduplicated_witness :
  deduplicated (Add RoleArtist [mkArtist "1" "A" "" "" ""; mkArtist "1" "B" "" "" ""] ∅).
Proof.
  apply Add_deduplicated. intros r. rewrite lookup_total_empty. constructor.
Defined.

(** X3. [Add] only appends: the artists stored under the role stay in
    front, in their order; what follows them is taken, in order, from the
    artists given; afterwards the identifier of every artist given is
    stored under the role; and no other role is touched. *)
Theorem Add_appends (r : Role) (artists : list Artist) (p : Participations) :
  (∃ ext, Add r artists p !!! r = p !!! r ++ ext ∧ ext `sublist_of` artists) ∧
  (∀ a, a ∈ artists → ID a ∈ artistIDs (Add r artists p !!! r)) ∧
  (∀ r', r ≠ r' → Add r artists p !! r' = p !! r').
Proof.
  split; [| split].
  - rewrite Add_lookup_total. apply addList_extends.
  - intros a Ha. rewrite Add_lookup_total, artistIDs_addList.
    apply elem_of_union_r, elem_of_artistIDs. eauto.
  - intros r' Hne. by apply Add_lookup_ne.
Qed.

Lemma Add_app (r : Role) (l k : list Artist) (p : Participations) :
  Add r (l ++ k) p = Add r k (Add r l p).
Proof.
  revert p. induction l as [|a l IH]; intros p; [done |].
  simpl. rewrite Add_cons, IH. by rewrite <- Add_cons.
Qed.

(** X4. Calls of [Add] compose and repeat harmlessly: adding one list and
    then another is adding their concatenation, and adding the same artists
    a second time changes nothing. *)
Theorem Add_compose_idempotent (r : Role) (l k : list Artist) (p : Participations) :
  Add r k (Add r l p) = Add r (l ++ k) p ∧
  Add r l (Add r l p) = Add r l p.
Proof.
  split; [by rewrite Add_app |].
  apply Add_seen. intros a Ha. rewrite Add_lookup_total, artistIDs_addList.
  apply elem_of_union_r, elem_of_artistIDs. eauto.
Qed.

Lemma First_alt (r : Role) (p : Participations) :
  First r p = default noArtist (head (p !!! r)).
Proof.
  unfold First. rewrite lookup_total_alt. destruct (p !! r) as [[|a l]|]; done.
Qed.

(** X5. The first artist of a role is settled by the first artist ever
    added: once a role has an artist, neither [Add] nor [Merge] changes what
    [First] returns; on a role without artists [Add] makes the first artist
    given the first one; and [First] of such a role is the zero artist. *)
Theorem First_stable (r : Role) (p other : Participations) (a : Artist)
    (artists : list Artist) :
  (p !!! r ≠ [] →
   First r (Add r artists p) = First r p ∧ First r (Merge p other) = First r p) ∧
  (p !!! r = [] →
   First r p = noArtist ∧ First r (Add r (a :: artists) p) = a).
Proof.
  split.
  - intros Hne. rewrite !First_alt, Add_lookup_total, Merge_lookup_total.
    destruct (addList_extends (p !!! r) artists) as (e1 & -> & _).
    destruct (addList_extends (p !!! r) (other !!! r)) as (e2 & -> & _).
    by destruct (p !!! r).
  - intros Hnil. rewrite !First_alt, Add_lookup_total, Hnil. split; [done |].
    simpl. rewrite decide_False by (unfold artistIDs; simpl; set_solver).
    destruct (addList_extends [a] artists) as (e & Heq & _).
    simpl in *. by rewrite Heq.
Qed.

Lemma First_stable_witness :
  let a := mkArtist "1" "A" "" "" "" in
  let b := mkArtist "2" "B" "" "" "" in
  First RoleArtist (Add RoleArtist [b] {[RoleArtist := [a]]}) = a ∧
  First RoleArtist (∅ : Participations) = noArtist ∧
  First RoleArtist (Add RoleArtist [a; b] ∅) = a.
Proof.
  intros a b.
  destruct (First_stable RoleArtist {[RoleArtist := [a]]} ∅ b [b]) as [Hset _].
  destruct (First_stable RoleArtist ∅ ∅ a [b]) as [_ Hnew].
  split; [| apply Hnew; reflexivity].
  refine (proj1 (Hset _)). vm_compute. discriminate.
Defined.

Lemma mergeIn_deduplicated (visits : list (Role * list Artist)) (p : Participations) :
  deduplicated p → deduplicated (mergeIn visits p).
Proof.
  revert p. induction visits as [|[r l] visits IH]; intros p Hp; [done |].
  simpl. apply IH. intros r'. apply Add_NoDup_role, Hp.
Qed.

(** X6. [Merge] is a role-wise union that only appends: under every role
    the receiver's artists stay in front and the identifiers stored
    afterwards are those of the receiver together with those of the other
    map; a de-duplicated receiver stays de-duplicated, whatever the other
    map holds; and merging the empty map changes nothing. *)
Theorem Merge_union (p other : Participations) :
  (∀ r, ∃ ext, Merge p other !!! r = p !!! r ++ ext ∧ ext `sublist_of` other !!! r) ∧
  (∀ r, artistIDs (Merge p other !!! r) = artistIDs (p !!! r) ∪ artistIDs (other !!! r)) ∧
  (deduplicated p → deduplicated (Merge p other)) ∧
  Merge p ∅ = p.
Proof.
  split; [| split; [| split]].
  - intros r. rewrite Merge_lookup_total. apply addList_extends.
  - intros r. by rewrite Merge_lookup_total, artistIDs_addList.
  - apply mergeIn_deduplicated.
  - unfold Merge. by rewrite map_to_list_empty.
Qed.

Lemma Merge_union_witness :
  deduplicated
    (Merge ∅ {[RoleArtist := [mkArtist "1" "A" "" "" ""; mkArtist "1" "B" "" "" ""]]}).
Proof.
  refine (proj1 (proj2 (proj2 (Merge_union ∅ _))) _).
  intros r. rewrite lookup_total_empty. constructor.
Defined.

End participations_more.

(** ** More on the mapping of tags *)
Module metadata_more.
Import model reference reference2 metadata mapped participations_facts participations_more
  metadata_facts.

Lemma imap_names {A} (f : nat → string → A) (proj : A → string) (l : list string) :
  (∀ i nm, proj (f i nm) = nm) → proj <$> imap f l = l.
Proof.
  revert f. induction l as [|x l IH]; intros f Hf; [done |].
  rewrite imap_cons, fmap_cons, Hf. f_equal. apply IH. intros i nm. apply Hf.
Qed.

Lemma getTags_single (md : Metadata) (t : TagName) : getTags md [t] = Strings md t.
Proof. simpl. case_bool_decide as Hlen; [done |]. destruct (Strings md t); simpl in *; [done | lia]. Qed.

Lemma addList_nil_inv (l : list Artist) : addList [] l = [] ↔ l = [].
Proof.
  split; [| by intros ->]. destruct l as [|a l]; [done |]. simpl.
  rewrite decide_False by (unfold artistIDs; simpl; set_solver).
  intros Heq. pose proof (addList_length [a] l) as Hlen. simpl in *.
  rewrite Heq in Hlen. simpl in Hlen. lia.
Qed.

Section mapping.
Variable UnknownArtist : string.
Variable artistID : Metadata → string → string.
Variable Sanitize : string → string.

Local Abbreviation mapP := (mapParticipations UnknownArtist artistID Sanitize).
Local Abbreviation parseAs := (parseArtists UnknownArtist artistID Sanitize).
Local Abbreviation parseA := (parseArtist artistID Sanitize).

Lemma parseArtist_names (md : Metadata) (names sorts mbids : list string) :
  Name <$> parseA md names sorts mbids = names.
Proof. unfold parseArtist. by apply imap_names. Qed.

Lemma parseArtist_nil (md : Metadata) (names sorts mbids : list string) :
  parseA md names sorts mbids = [] ↔ names = [].
Proof.
  rewrite <- (parseArtist_names md names sorts mbids) at 2.
  by destruct (parseA md names sorts mbids).
Qed.

Lemma parseArtist_lookup (md : Metadata) (names sorts mbids : list string) i a :
  parseA md names sorts mbids !! i = Some a →
  ID a = artistID md (Name a) ∧ OrderArtistName a = Sanitize (Name a) ∧
  names !! i = Some (Name a) ∧
  SortArtistName a = default "" (sorts !! i) ∧ MbzArtistID a = default "" (mbids !! i).
Proof.
  unfold parseArtist. rewrite list_lookup_imap.
  destruct (names !! i) as [nm|]; simpl; [| done]. by intros [= <-].
Qed.

(** The names of the artists of a tag pair; there is always one. *)
Lemma parseArtists_named (md : Metadata) (name names sort sorts mbid : TagName) :
  Name <$> parseAs md name names sort sorts mbid = nameValues UnknownArtist md name names ∧
  parseAs md name names sort sorts mbid ≠ [].
Proof.
  unfold parseArtists.
  set (nv := if bool_decide (length (getTags md [names; name]) = 0) then [UnknownArtist]
             else getTags md [names; name]).
  assert (nv = nameValues UnknownArtist md name names) as Hnv.
  { subst nv. unfold nameValues. simpl.
    destruct (Strings md names) as [|x l]; simpl; [| done].
    destruct (Strings md name) as [|y k]; simpl; done. }
  split; [by rewrite parseArtist_names |].
  rewrite parseArtist_nil, Hnv. unfold nameValues.
  by destruct (Strings md names), (Strings md name).
Qed.

(** X7. The artists of a tag pair.  [parseArtists] never returns an empty
    list: its artists are named, in order, after the values of the plural
    tag when there are any, else after those of the singular tag, else there
    is the one sentinel; each artist has the identifier and the order name
    computed from its name, and the sort name and MusicBrainz identifier
    found at its own position, when there is one. *)
Theorem parseArtists_names (md : Metadata) (name names sort sorts mbid : TagName) :
  let artists := parseAs md name names sort sorts mbid in
  Name <$> artists = nameValues UnknownArtist md name names ∧
  artists ≠ [] ∧
  ∀ i a, artists !! i = Some a →
    ID a = artistID md (Name a) ∧ OrderArtistName a = Sanitize (Name a) ∧
    SortArtistName a = default "" (getTags md [sorts; sort] !! i) ∧
    MbzArtistID a = default "" (Strings md mbid !! i).
Proof.
  intros artists. subst artists.
  destruct (parseArtists_named md name names sort sorts mbid) as [Hnames Hne].
  split; [done |]. split; [done |].
  intros i a Hi. unfold parseArtists in Hi. apply parseArtist_lookup in Hi. naive_solver.
Qed.

(** *** The three groups of roles *)

Lemma addEach_deduplicated (r : Role) (artists : list Artist) (p : Participations) :
  deduplicated p → deduplicated (addEach r artists p).
Proof. rewrite addEach_Add. intros Hp r'. apply Add_NoDup_role, Hp. Qed.

Lemma mapRoles_deduplicated (md : Metadata) (visits : list (Role * artistInfo))
    (p : Participations) :
  deduplicated p → deduplicated (mapRoles artistID Sanitize md visits p).
Proof.
  revert p. induction visits as [|[r info] visits IH]; intros p Hp; [done |].
  simpl. apply IH. by apply addEach_deduplicated.
Qed.

(** X8. The participations of a file are de-duplicated: under no role does
    an artist identifier occur twice, however often a name is repeated in
    the tags. *)
Theorem mapParticipations_deduplicated (md : Metadata) : deduplicated (mapP md).
Proof.
  unfold mapParticipations. apply mapRoles_deduplicated.
  do 2 apply addEach_deduplicated. intros r. rewrite lookup_total_empty. constructor.
Qed.

Lemma mapRoles_lookup (md : Metadata) (visits : list (Role * artistInfo))
    (p : Participations) (r : Role) (info : artistInfo) :
  NoDup visits.*1 → (r, info) ∈ visits →
  mapRoles artistID Sanitize md visits p !! r =
    Add r (roleArtists artistID Sanitize md info) p !! r.
Proof.
  revert p. induction visits as [|[r0 i0] visits IH]; intros p Hnd Hin.
  - by apply elem_of_nil in Hin.
  - apply NoDup_cons in Hnd as [Hfresh Hnd]. simpl.
    change (foldl _ ?q visits) with (mapRoles artistID Sanitize md visits q).
    apply elem_of_cons in Hin as [Heq|Hin].
    + injection Heq as <- <-. rewrite mapRoles_lookup_ne by done.
      by rewrite addEach_Add.
    + rewrite IH by done. rewrite addEach_Add.
      assert (r0 ≠ r) as Hne.
      { intros ->. apply Hfresh. apply list_elem_of_fmap. by exists (r, info). }
      rewrite !Add_lookup, !(lookup_total_alt _ r), !Add_lookup_ne by done. done.
Qed.

Lemma roleMappings_NoDup : NoDup roleMappings.*1.
Proof. apply (bool_decide_unpack _). by vm_compute. Qed.

Lemma mapParticipations_album (md : Metadata) :
  mapP md !! RoleAlbumArtist =
    Add RoleAlbumArtist
      (match taggedAlbumArtists UnknownArtist artistID Sanitize md with
       | [a] => if bool_decide (Name a = UnknownArtist)
                then trackArtists UnknownArtist artistID Sanitize md
                else taggedAlbumArtists UnknownArtist artistID Sanitize md
       | _ => taggedAlbumArtists UnknownArtist artistID Sanitize md
       end) ∅ !! RoleAlbumArtist.
Proof.
  unfold mapParticipations.
  rewrite mapRoles_lookup_ne by (vm_compute; set_solver).
  rewrite !addEach_Add.
  rewrite !Add_lookup, !(lookup_total_alt _ RoleAlbumArtist), !Add_lookup_ne by done.
  done.
Qed.

Lemma mapParticipations_role (md : Metadata) (r : Role) (info : artistInfo) :
  (r, info) ∈ roleMappings →
  mapP md !! r = Add r (roleArtists artistID Sanitize md info) ∅ !! r.
Proof.
  intros Hin. unfold mapParticipations.
  rewrite (mapRoles_lookup md roleMappings _ r info roleMappings_NoDup Hin).
  assert (r ≠ RoleArtist ∧ r ≠ RoleAlbumArtist) as [Hna Hnaa].
  { revert Hin. unfold roleMappings. rewrite !elem_of_cons, elem_of_nil.
    intros H. repeat (destruct H as [[= -> _] | H]; [done |]). done. }
  rewrite !addEach_Add.
  rewrite !Add_lookup, !(lookup_total_alt _ r), !Add_lookup_ne by done. done.
Qed.

Lemma mapRoles_keys (md : Metadata) (visits : list (Role * artistInfo))
    (p : Participations) (r : Role) :
  is_Some (mapRoles artistID Sanitize md visits p !! r) →
  r ∈ visits.*1 ∨ is_Some (p !! r).
Proof.
  revert p. induction visits as [|[r0 i0] visits IH]; intros p Hsome; [by right |].
  simpl in *. destruct (IH _ Hsome) as [Hin | Hp]; [left; by right |].
  destruct (decide (r0 = r)) as [->|Hne]; [left; left |].
  right. by rewrite addEach_Add, Add_lookup_ne in Hp.
Qed.

(** X9. The roles of a file.  Track artists and album artists are always
    there, with at least one artist each; the other roles are filled from
    [roleMappings] only, so nothing is ever stored for a performer or under
    an invalid role; and a role of [roleMappings] is present exactly when its
    name tag has values: the sentinel is not used for it. *)
Theorem mapParticipations_roles (md : Metadata) :
  mapP md !!! RoleArtist ≠ [] ∧
  mapP md !!! RoleAlbumArtist ≠ [] ∧
  (∀ r, is_Some (mapP md !! r) →
        r = RoleArtist ∨ r = RoleAlbumArtist ∨ r ∈ roleMappings.*1) ∧
  mapP md !! RolePerformer = None ∧
  mapP md !! RoleInvalid = None ∧
  (∀ r info, (r, info) ∈ roleMappings →
     (mapP md !! r = None ↔ Strings md (name info) = []) ∧
     mapP md !!! r = addList [] (roleArtists artistID Sanitize md info)).
Proof.
  assert (∀ r, is_Some (mapP md !! r) →
               r = RoleArtist ∨ r = RoleAlbumArtist ∨ r ∈ roleMappings.*1) as Hkeys.
  { intros r Hsome. unfold mapParticipations in Hsome.
    apply mapRoles_keys in Hsome as [Hin | Hsome]; [by right; right |].
    rewrite !addEach_Add in Hsome.
    destruct (decide (RoleAlbumArtist = r)) as [<-|Hnaa]; [by right; left |].
    rewrite Add_lookup_ne in Hsome by done.
    destruct (decide (RoleArtist = r)) as [<-|Hna]; [by left |].
    rewrite Add_lookup_ne, lookup_empty in Hsome by done. by destruct Hsome. }
  split; [| split; [| split; [done | split; [| split]]]].
  - rewrite lookup_total_alt, mapParticipations_artist, <- lookup_total_alt.
    rewrite Add_lookup_total, lookup_total_empty, addList_nil_inv.
    apply (parseArtists_named md).
  - rewrite lookup_total_alt, mapParticipations_album, <- lookup_total_alt.
    rewrite Add_lookup_total, lookup_total_empty, addList_nil_inv.
    pose proof (proj2 (parseArtists_named md AlbumArtist AlbumArtists
                                AlbumArtistSort AlbumArtistsSort
                                MusicBrainzAlbumArtistID)) as Haa.
    pose proof (proj2 (parseArtists_named md TrackArtist TrackArtists
                                TrackArtistSort TrackArtistsSort
                                MusicBrainzArtistID)) as Hta.
    unfold taggedAlbumArtists, trackArtists.
    destruct (parseAs md AlbumArtist _ _ _ _) as [|a [|b l]]; [done | | done].
    by case_bool_decide.
  - apply eq_None_not_Some. intros Hsome.
    destruct (Hkeys _ Hsome) as [? | [? | Hin]]; [done | done |].
    revert Hin. vm_compute. set_solver.
  - apply eq_None_not_Some. intros Hsome.
    destruct (Hkeys _ Hsome) as [? | [? | Hin]]; [done | done |].
    revert Hin. vm_compute. set_solver.
  - intros r info Hin. split.
    + rewrite (mapParticipations_role md r info Hin).
      rewrite Add_fresh_role by apply lookup_empty.
      unfold roleArtists. rewrite getTags_single.
      case_decide as Hnil.
      * apply addList_nil_inv, parseArtist_nil in Hnil. done.
      * split; [done |]. intros Hs. exfalso. apply Hnil.
        by apply addList_nil_inv, parseArtist_nil.
    + rewrite lookup_total_alt, (mapParticipations_role md r info Hin),
        <- lookup_total_alt.
      by rewrite Add_lookup_total, lookup_total_empty.
Qed.

(** Without album-artist tags the album artists are the track artists. *)
Lemma mapParticipations_album_artists_aux (md : Metadata) :
  Strings md AlbumArtist = [] → Strings md AlbumArtists = [] →
  mapP md !!! RoleAlbumArtist = mapP md !!! RoleArtist.
Proof.
  intros H1 Hs.
  rewrite !(lookup_total_alt (mapP md)), mapParticipations_album,
    mapParticipations_artist, <- !lookup_total_alt.
  rewrite !Add_lookup_total, !lookup_total_empty.
  unfold taggedAlbumArtists, parseArtists. simpl. rewrite Hs, H1. simpl.
  by rewrite bool_decide_eq_true_2.
Qed.

(** X10. Album artists.  When the album-artist tags name anything but the
    lone sentinel, the album artists are those of the tags, de-duplicated,
    whatever the track artists are; when they are missing, or name the lone
    sentinel, the album artists are the track artists. *)
Theorem mapParticipations_album_artists (md : Metadata) :
  let tagged := taggedAlbumArtists UnknownArtist artistID Sanitize md in
  (Name <$> tagged ≠ [UnknownArtist] →
   mapP md !!! RoleAlbumArtist = addList [] tagged) ∧
  (Name <$> tagged = [UnknownArtist] →
   mapP md !!! RoleAlbumArtist = mapP md !!! RoleArtist).
Proof.
  intros tagged.
  rewrite !(lookup_total_alt (mapP md)), mapParticipations_album,
    mapParticipations_artist, <- !lookup_total_alt.
  rewrite !Add_lookup_total, !lookup_total_empty. fold tagged.
  split; intros Hnames.
  - destruct tagged as [|a [|b l]]; [done | | done].
    rewrite bool_decide_eq_false_2; [done |]. intros Hn. apply Hnames. simpl. by rewrite Hn.
  - destruct tagged as [|a [|b l]]; [done | | done].
    injection Hnames as Hn. by rewrite bool_decide_eq_true_2.
Qed.

End mapping.

Lemma mapParticipations_album_artists_witness :
  mapParticipations "[Unknown Artist]" (λ _ nm, nm) id examples.untagged
    !!! RoleAlbumArtist =
  mapParticipations "[Unknown Artist]" (λ _ nm, nm) id examples.untagged !!! RoleArtist.
Proof.
  refine (proj2 (mapParticipations_album_artists "[Unknown Artist]" (λ _ nm, nm) id
                   examples.untagged) _).
  reflexivity.
Defined.

End metadata_more.

(** ** More on the folder stage *)
Module stage_more.
Import model metadata scanner2 reference reference_stage diff_facts stage_facts.

Lemma BreakUp_nil {A} (n : nat) : slice.BreakUp n ([] : list A) = [].
Proof. done. Qed.

Lemma BreakUp_single {A} (n : nat) (items : list A) :
  items ≠ [] → length items ≤ n → slice.BreakUp n items = [items].
Proof.
  intros Hne Hlen. unfold slice.BreakUp. destruct items as [|x items]; [done |].
  cbn [length slice.BreakUpFuel].
  rewrite take_ge, drop_ge by done. by destruct (length items).
Qed.

Lemma rangeChunks_invariant {A S} (I : S → Prop) (cb : S → list A → S * option error)
    (s : S) (chunks : list (list A)) :
  (∀ s c, I s → I (cb s c).1) → I s → I (slice.rangeChunks cb s chunks).1.
Proof.
  intros Hcb. revert s. induction chunks as [|c chunks IH]; intros s Hs; [done |].
  simpl. pose proof (Hcb s c Hs) as Hstep.
  destruct (cb s c) as [s' [err|]]; simpl in *; [done |]. by apply IH.
Qed.

Section stage.
Context {W : Type}.
Variable Join : string → string → string.
Variable GetByFolder : string → result (list MediaFile).
Variable ReadTags : W → list string → W * result (gmap string Info).
Variable ToMediaFile : string → Info → MediaFile.
Variable FlattenAll : string → Info → list Tag.

Local Abbreviation diffFiles := (scanner2.diffFiles Join).
Local Abbreviation classify := (scanner2.classify Join).
Local Abbreviation loadChunk := (scanner2.loadChunk ReadTags ToMediaFile FlattenAll).
Local Abbreviation loadTags := (scanner2.loadTagsFromFiles ReadTags ToMediaFile FlattenAll).
Local Abbreviation stage :=
  (scanner2.processFolder Join GetByFolder ReadTags ToMediaFile FlattenAll).

(** *** Where the errors of the stage come from *)

Lemma diffFiles_error_inv entryPath full visits db imp err :
  diffFiles entryPath full visits db imp = Err err →
  ∃ af de, (af, de) ∈ visits ∧ deInfo de = Err err ∧ readsInfo full db af.
Proof.
  revert db imp. induction visits as [|[k d] visits IH]; intros db imp Hrun; [done |].
  simpl in Hrun.
  assert (∀ imp', diffFiles entryPath full visits (delete k db) imp' = Err err →
            ∃ af de, (af, de) ∈ (k, d) :: visits ∧ deInfo de = Err err ∧
                     readsInfo full db af) as Hnext.
  { intros imp' Hrest. destruct (IH _ _ Hrest) as (af & de & Hin & Hde & Hfull & Hsome).
    exists af, de. split; [by right |]. split; [done |]. split; [done |].
    destruct Hsome as [row Hrow]. apply lookup_delete_Some in Hrow as [_ Hrow]. by eexists. }
  destruct (db !! k) as [row|] eqn:Hrow; [| by eapply Hnext].
  destruct full eqn:Hfull; [by eapply Hnext |].
  destruct (deInfo d) as [info|e] eqn:Hd.
  - destruct (After (ModTime info) (UpdatedAt row)); by eapply Hnext.
  - injection Hrun as ->. exists k, d. split; [left |]. split; [done |].
    split; [done | by eexists].
Qed.

(** X11. What the stage hands back.  An entry that comes back has the path,
    the identifier, the job and the listing it came with.  An error comes
    back only from the data store, next to the untouched entry, or from an
    [Info()] that was read, with no entry at all; in both cases the extractor
    was not called.  A failure of the extractor never comes back as an
    error. *)
Theorem processFolder_outcome (visits : list (string * DirEntry)) (w : W)
    (entry : folderEntry) :
  let o := stage visits w entry in
  (∀ entry', entryOut o = Some entry' →
     path entry' = path entry ∧ id entry' = id entry ∧ job entry' = job entry ∧
     audioFiles entry' = audioFiles entry) ∧
  (∀ err, errOut o = Some err →
     world o = w ∧
     ((GetByFolder (id entry) = Err err ∧ entryOut o = Some entry) ∨
      (∃ mfs af de,
         GetByFolder (id entry) = Ok mfs ∧ (af, de) ∈ visits ∧ deInfo de = Err err ∧
         readsInfo (fullRescan (job entry)) (slice.ToMap mfs (λ mf, (Path mf, mf))) af ∧
         entryOut o = None))).
Proof.
  intros o. subst o. unfold scanner2.processFolder, scanner2.classify.
  destruct (GetByFolder (id entry)) as [mfs|e] eqn:Hdb.
  - destruct (diffFiles (path entry) (fullRescan (job entry)) visits _ [])
      as [[db' imp]|e] eqn:Hdiff.
    + case_bool_decide.
      * destruct (loadTags _ _ imp) as [st [e|]]; simpl; split;
          [by intros ? [= <-] | done | by intros ? [= <-] | done].
      * simpl. split; [by intros ? [= <-] | done].
    + simpl. split; [done |]. intros err [= ->]. split; [done |]. right.
      apply diffFiles_error_inv in Hdiff as (af & de & Hin & Hde & Hreads).
      by exists mfs, af, de.
  - simpl. split; [by intros ? [= <-] |]. intros err [= ->]. split; [done |]. by left.
Qed.

(** *** Folders that need no extraction *)

Lemma filter_all_true {A} (f : A → bool) (l : list A) :
  (∀ x, x ∈ l → f x = true) → filter (λ x, f x) l = l.
Proof.
  induction l as [|x l IH]; intros Hall; [done |].
  rewrite filter_cons_bool, Hall by left. f_equal. apply IH. intros y Hy. apply Hall. by right.
Qed.



(** X13. A full rescan imports every listed file, in visiting order, and
    never reads a file's [Info()]: the diff succeeds even when every
    [Info()] would fail.  The missing tracks are the unlisted rows, as in
    any other scan. *)
Theorem full_rescan_imports_all (entryPath : string) (visits : list (string * DirEntry))
    (mfs : list MediaFile) :
  NoDup visits.*1 →
  classify entryPath true visits mfs =
    Ok ((λ e, Join entryPath e.1) <$> visits,
        (map_to_list (unlisted visits (slice.ToMap mfs (λ mf, (Path mf, mf))))).*2).
Proof.
  intros Hnd. unfold scanner2.classify. rewrite diffFiles_ok.
  - rewrite filter_all_true; [done |]. intros [af de] _. unfold importsFile. simpl.
    by destruct (_ !! af).
  - done.
  - by intros af de _ [? _].
Qed.

(** *** What the extraction returns *)

Lemma addTrack_owned entry (ts : list MediaFile) (m : gmap string Tag) (pi : string * Info) :
  owned entry ts m →
  owned entry (scanner2.addTrack ToMediaFile FlattenAll entry (ts, m) pi).1
    (scanner2.addTrack ToMediaFile FlattenAll entry (ts, m) pi).2.
Proof.
  intros [Hts Hm]. unfold scanner2.addTrack. simpl. split.
  - apply Forall_app. split; [done |]. by constructor.
  - generalize (FlattenAll pi.1 pi.2). intros tags. revert m Hm.
    induction tags as [|t tags IH]; intros m Hm; [done |].
    simpl. apply IH. intros k t' Hk. destruct (decide (tagID t = k)) as [<-|Hne].
    + rewrite lookup_insert_eq in Hk. by injection Hk as <-.
    + rewrite lookup_insert_ne in Hk by done. by apply Hm.
Qed.

Lemma addTracks_owned entry (l : list (string * Info)) (tm : list MediaFile * gmap string Tag) :
  owned entry tm.1 tm.2 →
  owned entry (foldl (scanner2.addTrack ToMediaFile FlattenAll entry) tm l).1
    (foldl (scanner2.addTrack ToMediaFile FlattenAll entry) tm l).2.
Proof.
  revert tm. induction l as [|pi l IH]; intros [ts m] Hown; [done |].
  simpl. apply IH. by apply addTrack_owned.
Qed.

Lemma addTracks_tracks entry (l : list (string * Info)) (ts : list MediaFile)
    (m : gmap string Tag) :
  (foldl (scanner2.addTrack ToMediaFile FlattenAll entry) (ts, m) l).1 =
    ts ++ ((λ pi, setOwner (libraryID (job entry)) (id entry) (ToMediaFile pi.1 pi.2)) <$> l).
Proof.
  revert ts m. induction l as [|pi l IH]; intros ts m; simpl.
  - by rewrite app_nil_r.
  - unfold scanner2.addTrack at 2. simpl. rewrite IH. by rewrite <- app_assoc.
Qed.

Lemma loadChunk_owned entry toImport (st : loadState) chunk :
  owned entry (lsTracks st) (lsTags st) →
  owned entry (lsTracks (loadChunk entry toImport st chunk).1)
    (lsTags (loadChunk entry toImport st chunk).1).
Proof.
  intros Hown. unfold scanner2.loadChunk.
  destruct (ReadTags (lsWorld st) toImport) as [w' [allInfo|err]]; simpl; [| done].
  by apply (addTracks_owned entry _ (lsTracks st, lsTags st)).
Qed.

(** X14. Whatever the extractor answers, and whether the extraction ends
    with an error or not, every track [loadTagsFromFiles] returns carries
    the library of the job and the identifier of the folder, and no two of
    the tags it returns have the same identifier. *)
Theorem loadTagsFromFiles_owned (w : W) (entry : folderEntry) (toImport : list string) :
  let st := (loadTags w entry toImport).1 in
  Forall (λ t, LibraryID t = libraryID (job entry) ∧ FolderID t = id entry)
    (lsTracks st) ∧
  NoDup (tagID <$> (map_to_list (lsTags st)).*2).
Proof.
  intros st.
  assert (owned entry (lsTracks st) (lsTags st)) as [Hts Htags].
  { subst st. unfold scanner2.loadTagsFromFiles, slice.RangeByChunks.
    apply (rangeChunks_invariant (λ s, owned entry (lsTracks s) (lsTags s))).
    - intros s c. apply loadChunk_owned.
    - split; [constructor | done]. }
  split; [done |].
  rewrite <- list_fmap_compose.
  rewrite (list_fmap_ext (tagID ∘ snd) fst (map_to_list (lsTags st))).
  - apply NoDup_fst_map_to_list.
  - intros i [k t] Hi. simpl. apply Htags.
    by apply elem_of_map_to_list, list_elem_of_lookup_2 with i.
Qed.

(** X15. Small folders.  With nothing to import the extractor is not
    called and nothing is returned.  With at most [filesBatchSize] files
    there is one batch and one call of the extractor, on exactly the files to
    import: its error is the error returned, with no track and no tag, and
    its answer yields one track for each file it reports. *)
Theorem loadTagsFromFiles_single_batch (w : W) (entry : folderEntry)
    (toImport : list string) :
  (toImport = [] → loadTags w entry toImport = (mkLoadState w [] [] ∅, None)) ∧
  (toImport ≠ [] → length toImport ≤ filesBatchSize →
   let r := loadTags w entry toImport in
   lsWorld r.1 = (ReadTags w toImport).1 ∧
   match (ReadTags w toImport).2 with
   | Err err => r.2 = Some err ∧ lsTracks r.1 = [] ∧ lsTags r.1 = ∅
   | Ok allInfo =>
       r.2 = None ∧
       lsTracks r.1 =
         (λ pi, setOwner (libraryID (job entry)) (id entry) (ToMediaFile pi.1 pi.2))
           <$> map_to_list allInfo
   end).
Proof.
  split; [by intros -> |].
  intros Hne Hlen r. subst r.
  unfold scanner2.loadTagsFromFiles, slice.RangeByChunks.
  rewrite BreakUp_single by done. cbn [slice.rangeChunks].
  unfold scanner2.loadChunk. cbn [lsWorld lsLogs lsTracks lsTags].
  destruct (ReadTags w toImport) as [w' [allInfo|err]]; simpl; [| done].
  split; [done |]. split; [done |]. by rewrite addTracks_tracks.
Qed.

End stage.

Lemma loadTagsFromFiles_single_batch_witness :
  let r :=
    loadTagsFromFiles examples.recordCalls examples.trackOf (λ _ _, []) []
      examples.brokenEntry ["a.mp3"; "b.mp3"] in
  lsWorld r.1 = [["a.mp3"; "b.mp3"]] ∧ r.2 = None ∧ length (lsTracks r.1) = 2.
Proof.
  intros r.
  destruct (proj2 (loadTagsFromFiles_single_batch examples.recordCalls examples.trackOf
                     (λ _ _, []) [] examples.brokenEntry ["a.mp3"; "b.mp3"]))
    as (Hw & Herr & Htracks).
  - discriminate.
  - vm_compute. lia.
  - split; [exact Hw |]. split; [exact Herr |]. subst r. rewrite Htracks. reflexivity.
Defined.


Lemma full_rescan_imports_all_witness :
  classify examples.joinPath "." true
    [("a.mp3", examples.unreadable "a.mp3"); ("b.mp3", examples.fileAt "b.mp3" 9%Z)]
    examples.brokenRows = Ok (["a.mp3"; "b.mp3"], []).
Proof.
  rewrite full_rescan_imports_all.
  - reflexivity.
  - apply (bool_decide_unpack _). vm_compute. exact I.
Defined.

Lemma processFolder_outcome_witness :
  errOut (processFolder examples.joinPath (λ _, Err (mkError "database is locked"))
            examples.recordCalls examples.trackOf (λ _ _, [])
            (map_to_list examples.brokenListing) [] examples.brokenEntry)
    = Some (mkError "database is locked") ∧
  world (processFolder examples.joinPath (λ _, Err (mkError "database is locked"))
           examples.recordCalls examples.trackOf (λ _ _, [])
           (map_to_list examples.brokenListing) [] examples.brokenEntry) = [].
Proof.
  split; [reflexivity |].
  refine (proj1 (proj2 (processFolder_outcome examples.joinPath
            (λ _, Err (mkError "database is locked")) examples.recordCalls
            examples.trackOf (λ _ _, []) (map_to_list examples.brokenListing) []
            examples.brokenEntry) (mkError "database is locked") _)).
  reflexivity.
Defined.

End stage_more.

(** ** More on the two storages *)
Module storage_more.
Import metadata storagetest fakefs reference_local storage_facts.

Section fake.
Context {Json : Type}.
Variable ValidPath : string → bool.
Variable Unmarshal : string → result (gmap string Json).
Variable asFloat64 : Json → option Z.
Variable asString : Json → option string.
Variable Sprint : Json → string.
Variable Base : string → string.
Variable parseRFC3339 : string → Time.
Variable Dir : string → string.

Local Abbreviation parseFile :=
  (storagetest.parseFile ValidPath Unmarshal asFloat64 asString Sprint Base parseRFC3339).
Local Abbreviation readTagsFrom :=
  (storagetest.readTagsFrom ValidPath Unmarshal asFloat64 asString Sprint Base parseRFC3339).
Local Abbreviation ReadTags :=
  (storagetest.ReadTags ValidPath Unmarshal asFloat64 asString Sprint Base parseRFC3339).
Local Abbreviation Touch := (fakefs.Touch Dir).

(** [parseFile] looks at the entry stored for the path and, when there is
    none, at whether the path is a directory of the file system. *)
Lemma parseFile_local (ffs ffs' : FakeFS) (p : string) :
  ffs !! p = ffs' !! p → impliedDir ffs p = impliedDir ffs' p →
  parseFile ffs p = parseFile ffs' p.
Proof.
  intros Heq Hdir. unfold storagetest.parseFile, ReadFile. by rewrite Heq, Hdir.
Qed.

(** File systems with the same names have the same directories. *)
Lemma impliedDir_names (ffs ffs' : FakeFS) (q : string) :
  (∀ k, is_Some (ffs !! k) → is_Some (ffs' !! k)) →
  (∀ k, is_Some (ffs' !! k) → is_Some (ffs !! k)) →
  impliedDir ffs q = impliedDir ffs' q.
Proof.
  intros Hto Hfrom. unfold impliedDir. f_equal. apply bool_decide_ext.
  rewrite !Exists_exists. split.
  - intros ([k f] & Hin & Hpre). apply elem_of_map_to_list in Hin.
    destruct (Hto k ltac:(by eexists)) as [f' Hf'].
    exists (k, f'). split; [by apply elem_of_map_to_list | done].
  - intros ([k f] & Hin & Hpre). apply elem_of_map_to_list in Hin.
    destruct (Hfrom k ltac:(by eexists)) as [f' Hf'].
    exists (k, f'). split; [by apply elem_of_map_to_list | done].
Qed.

(** X16. Parsing a fake file.  The file parses exactly when the path is a
    valid path, names an entry that is not a directory, and the contents of
    the entry decode.  When it parses, every key of the decoded object, the
    bookkeeping keys included, becomes a tag with one value, and the file
    details carry the base name of the path and the modification time of the
    entry. *)
Theorem parseFile_cases (ffs : FakeFS) (p : string) :
  (isErr (parseFile ffs p) = false ↔
     ValidPath p = true ∧
     ∃ f data, ffs !! p = Some f ∧ IsDir f = false ∧ Unmarshal (Data f) = Ok data) ∧
  (∀ info, parseFile ffs p = Ok info →
     ∃ f data fi,
       ffs !! p = Some f ∧ Unmarshal (Data f) = Ok data ∧
       Tags info = (λ v, [Sprint v]) <$> data ∧
       fileInfo info = Some fi ∧ fiName fi = Base p ∧ ModTime fi = fileModTime f).
Proof.
  unfold storagetest.parseFile, ReadFile.
  destruct (ValidPath p) eqn:Hvalid; simpl.
  2:{ split; [| done]. split; [done |]. by intros [? _]. }
  destruct (ffs !! p) as [f|] eqn:Hf; simpl.
  2:{ destruct (impliedDir ffs p); simpl.
      all: split; [| done]; split; [done |]; by intros (_ & f & data & ? & _). }
  - destruct (IsDir f) eqn:Hdir; simpl.
    + split; [| done].
      split; [done |]. intros (_ & f' & data & [= <-] & Hd & _). congruence.
    + destruct (Unmarshal (Data f)) as [data|err] eqn:Hdata; simpl.
      * split.
        -- split; [| done]. intros _. split; [done |]. by exists f, data.
        -- intros info [= <-]. simpl. by eexists f, data, _.
      * split; [| done].
        split; [done |]. intros (_ & f' & data & [= <-] & _ & Hd). congruence.
Qed.

Lemma readTagsFrom_inv (ffs : FakeFS) (paths : list string) (acc m : gmap string Info) :
  readTagsFrom ffs paths acc = Ok m →
  ∀ q, q ∈ paths → isErr (parseFile ffs q) = false.
Proof.
  revert acc. induction paths as [|p paths IH]; intros acc Hrun q Hq.
  - by apply elem_of_nil in Hq.
  - simpl in Hrun. destruct (parseFile ffs p) as [i|e] eqn:Hp; [| done].
    apply elem_of_cons in Hq as [->|Hq]; [by rewrite Hp |]. by eapply IH.
Qed.

(** X17. What a successful [ReadTags] returns.  The map has an entry for
    each path asked for and for nothing else, a path given twice counting
    once, and the entry of a path is what [parseFile] returns for it; asked
    for no path, the call returns the empty map. *)
Theorem fake_ReadTags_ok (ffs : FakeFS) (paths : list string) (m : gmap string Info) :
  ReadTags ffs paths = Ok m →
  (∀ q, is_Some (m !! q) ↔ q ∈ paths) ∧
  (∀ q info, m !! q = Some info → parseFile ffs q = Ok info) ∧
  (paths = [] → m = ∅).
Proof.
  intros Hrun. pose proof (readTagsFrom_inv ffs paths ∅ m Hrun) as Hall.
  destruct (readTagsFrom_ok ValidPath Unmarshal asFloat64 asString Sprint Base
              parseRFC3339 ffs paths ∅ Hall) as (m' & Hm' & Hlook).
  unfold storagetest.ReadTags in Hrun. rewrite Hrun in Hm'. injection Hm' as <-.
  split; [| split].
  - intros q. rewrite Hlook. destruct (decide (q ∈ paths)) as [Hin|Hnin].
    + pose proof (Hall q Hin) as Hq. destruct (parseFile ffs q); [| done].
      split; [done | by eexists].
    + rewrite lookup_empty. split; [by intros [? ?] | done].
  - intros q info. rewrite Hlook. case_decide; [| by rewrite lookup_empty].
    by destruct (parseFile ffs q); intros [= <-].
  - intros ->. by injection Hrun as <-.
Qed.

(** What a [Touch] that returns has done. *)
Lemma Touch_ok (ffs ffs' : FakeFS) (p : string) (t : Time) :
  Touch ffs p t = Ok ffs' →
  (∃ f, ffs !! p = Some f ∧ ffs' !! p = Some (setModTime f t)) ∧
  (Dir p ≠ p →
   ∃ d, ffs !! Dir p = Some d ∧
        ffs' !! Dir p = Some (setModTime d (Z.max (fileModTime d) t))) ∧
  (∀ q, q ≠ p → q ≠ Dir p → ffs' !! q = ffs !! q).
Proof.
  unfold fakefs.Touch. intros Hrun. destruct (ffs !! p) as [f|] eqn:Hf.
  2:{ by destruct (_ !! Dir p). }
  destruct (decide (Dir p = p)) as [Heq|Hne].
  - rewrite Heq, lookup_insert_eq in Hrun. simpl in Hrun.
    rewrite bool_decide_eq_false_2 in Hrun by lia. injection Hrun as <-.
    split; [exists f; by rewrite lookup_insert_eq |]. split; [done |].
    intros q Hq _. by rewrite lookup_insert_ne.
  - rewrite lookup_insert_ne in Hrun by done.
    destruct (ffs !! Dir p) as [d|] eqn:Hd; [| done].
    case_bool_decide as Hlt; injection Hrun as <-.
    + split; [exists f; by rewrite lookup_insert_ne, lookup_insert_eq |].
      split.
      * intros _. exists d. split; [done |]. rewrite lookup_insert_eq.
        by rewrite Z.max_r by lia.
      * intros q Hq Hqd. by rewrite !lookup_insert_ne.
    + split; [exists f; by rewrite lookup_insert_eq |].
      split.
      * intros _. exists d. split; [done |]. rewrite lookup_insert_ne by done.
        rewrite Z.max_l by lia. by destruct d.
      * intros q Hq Hqd. by rewrite lookup_insert_ne.
Qed.

(** X18. Touching a file.  [Touch] returns only when both the file and its
    directory are in the file system; for a path that is not in it the call
    never returns normally, and without the directory it is fatal.  When it
    returns, the file has the new modification time and its contents, the
    directory has the later of its own time and the new one, and every other
    entry is as before. *)
Theorem Touch_cases (ffs : FakeFS) (p : string) (t : Time) :
  (ffs !! p = None → isErr (Touch ffs p t) = true) ∧
  (∀ f, ffs !! p = Some f → Dir p ≠ p → ffs !! Dir p = None →
        Touch ffs p t = Err ErrFatal) ∧
  (∀ ffs', Touch ffs p t = Ok ffs' →
     (∃ f, ffs !! p = Some f ∧ ffs' !! p = Some (setModTime f t)) ∧
     (Dir p ≠ p →
      ∃ d, ffs !! Dir p = Some d ∧
           ffs' !! Dir p = Some (setModTime d (Z.max (fileModTime d) t))) ∧
     (∀ q, q ≠ p → q ≠ Dir p → ffs' !! q = ffs !! q)).
Proof.
  split; [| split].
  - unfold fakefs.Touch. intros ->. by destruct (_ !! Dir p).
  - unfold fakefs.Touch. intros f -> Hne Hdir. by rewrite lookup_insert_ne, Hdir.
  - intros ffs'. apply Touch_ok.
Qed.

(** X19. Touching and reading back.  After a [Touch] that returned, the
    file parses exactly when it did before, with the same tags and audio
    properties, and its file details now carry the new modification time;
    files other than the touched one and its directory parse as before. *)
Theorem Touch_then_parseFile (ffs ffs' : FakeFS) (p : string) (t : Time) :
  Touch ffs p t = Ok ffs' →
  (isErr (parseFile ffs' p) = isErr (parseFile ffs p)) ∧
  (∀ info', parseFile ffs' p = Ok info' →
     (ModTime <$> fileInfo info') = Some t ∧
     ∃ info, parseFile ffs p = Ok info ∧ Tags info' = Tags info ∧
             audioProps info' = audioProps info ∧ HasPicture info' = HasPicture info) ∧
  (∀ q, q ≠ p → q ≠ Dir p → parseFile ffs' q = parseFile ffs q).
Proof.
  intros Hrun.
  destruct (Touch_ok ffs ffs' p t Hrun) as ((f & Hf & Hf') & _ & Hother).
  split; [| split].
  - unfold storagetest.parseFile, ReadFile. rewrite Hf, Hf'. simpl.
    destruct (ValidPath p); [| done].
    destruct (IsDir f); [done |]. by destruct (Unmarshal (Data f)).
  - intros info'. unfold storagetest.parseFile, ReadFile. rewrite Hf, Hf'. simpl.
    destruct (ValidPath p); [| done].
    destruct (IsDir f); [done |]. destruct (Unmarshal (Data f)) as [data|]; [| done].
    intros [= <-]. simpl. split; [done |]. by eexists.
  - intros q Hq Hqd. apply parseFile_local; [by apply Hother |].
    destruct (Touch_ok ffs ffs' p t Hrun) as (_ & Hdir & _).
    apply impliedDir_names; intros k.
    + destruct (decide (k = p)) as [->|Hkp]; [by rewrite Hf, Hf'; eauto |].
      destruct (decide (k = Dir p)) as [->|Hkd]; [| by rewrite Hother].
      destruct (Hdir ltac:(congruence)) as (d & Hd & Hd'). rewrite Hd, Hd'. eauto.
    + destruct (decide (k = p)) as [->|Hkp]; [by rewrite Hf, Hf'; eauto |].
      destruct (decide (k = Dir p)) as [->|Hkd]; [| by rewrite Hother].
      destruct (Hdir ltac:(congruence)) as (d & Hd & Hd'). rewrite Hd, Hd'. eauto.
Qed.

End fake.

Section localfs.
Variable Parse : list string → result (gmap string Info).
Variable Stat : string → result FileInfo.

(** X20. What a successful [ReadTags] of the local storage returns.  When
    the extractor answers and [Stat] succeeds for each of its results that
    lacks file details, the call succeeds with a result for exactly the paths
    the extractor reported: a result that had file details is returned as it
    was, one that lacked them has the details of [Stat] and is otherwise as
    the extractor returned it; so no result is without file details. *)
Theorem local_ReadTags_ok (paths : list string) (res : gmap string Info) :
  Parse paths = Ok res →
  (∀ p v, res !! p = Some v → fileInfo v = None → isErr (Stat p) = false) →
  ∃ m, local.ReadTags Parse Stat paths = Ok m ∧
       (∀ p, m !! p = filled Stat p <$> res !! p) ∧
       (∀ p v', m !! p = Some v' →
          is_Some (fileInfo v') ∧
          ∃ v, res !! p = Some v ∧ Tags v' = Tags v ∧ audioProps v' = audioProps v ∧
               HasPicture v' = HasPicture v).
Proof.
  intros Hparse Hstat. unfold local.ReadTags. rewrite Hparse.
  destruct (fillFileInfo_ok Stat (map_to_list res) res) as (m & Hm & Hlook).
  - apply NoDup_fst_map_to_list.
  - intros p v. apply elem_of_map_to_list.
  - intros p v Hin. apply Hstat. by apply elem_of_map_to_list.
  - assert (∀ p, m !! p = filled Stat p <$> res !! p) as Hall.
    { intros p. rewrite Hlook. case_decide as Hin; [done |].
      destruct (res !! p) as [v|] eqn:Hp; [| done].
      exfalso. apply Hin. apply list_elem_of_fmap. exists (p, v).
      split; [done |]. by apply elem_of_map_to_list. }
    exists m. split; [done |]. split; [done |].
    intros p v'. rewrite Hall. destruct (res !! p) as [v|] eqn:Hp; [| done].
    simpl. intros [= <-]. unfold filled.
    destruct (fileInfo v) as [fi|] eqn:Hfi.
    + split; [by rewrite Hfi |]. by exists v.
    + pose proof (Hstat p v Hp Hfi) as Hs. destruct (Stat p) as [info|]; [| done].
      split; [by eexists |]. by exists v.
Qed.

End localfs.

Lemma fake_ReadTags_ok_witness :
  ∃ m, examples.fakeReadTags examples.oneFile ["a.mp3"] = Ok m ∧ is_Some (m !! "a.mp3").
Proof.
  eexists. split; [reflexivity |].
  refine (proj2 (proj1 (fake_ReadTags_ok (Json := unit) examples.validPath (λ _, Ok ∅)
                          (λ _, None) (λ _, None) (λ _, "") id (λ _, 0%Z) examples.oneFile
                          ["a.mp3"] _ _) "a.mp3") _).
  - reflexivity.
  - left.
Defined.

Lemma Touch_then_parseFile_witness :
  ∃ ffs', fakefs.Touch examples2.rootDir examples2.touchFS "a.mp3" 7%Z = Ok ffs' ∧
          isErr (examples.fakeParseFile ffs' "a.mp3") =
            isErr (examples.fakeParseFile examples2.touchFS "a.mp3").
Proof.
  eexists. split; [reflexivity |].
  refine (proj1 (Touch_then_parseFile (Json := unit) examples.validPath (λ _, Ok ∅)
                   (λ _, None) (λ _, None)
                   (λ _, "") id (λ _, 0%Z) examples2.rootDir examples2.touchFS _
                   "a.mp3" 7%Z _)).
  reflexivity.
Defined.

Lemma local_ReadTags_ok_witness :
  ∃ m, local.ReadTags examples2.parseOne examples2.statAll ["a.mp3"] = Ok m.
Proof.
  destruct (local_ReadTags_ok examples2.parseOne examples2.statAll ["a.mp3"]
              {[ "a.mp3" := examples.blankInfo ]}) as (m & Hm & _).
  - reflexivity.
  - intros p v _ _. reflexivity.
  - exists m. exact Hm.
Defined.

End storage_more.

(** ** More on the media file repository *)
Module repository_facts.
Import model persistence repository reference reference_repository persistence_facts.

(** The rows after [MarkMissing], for use in other proofs. *)
Lemma MarkMissing_effect_aux (fault : nat → option error) (now : nat → Time)
    (missing : bool) (mfs : list MediaFile) (db : DB) :
  let r := MarkMissing fault now missing mfs db in
  mfID <$> media_file (msDB r.1) = mfID <$> media_file db ∧
  (r.2 = None →
   ∀ row, row ∈ media_file (msDB r.1) → mfID row ∈ mfID <$> mfs → Missing row = missing).
Proof.
  intros r. subst r. unfold MarkMissing, slice.RangeByChunks.
  destruct (run_rows fault now missing (slice.BreakUp 200 (mfID <$> mfs))
              (mkMarkState db 0 [])) as (g & Hrows & _ & Hid & _ & _ & Hdone).
  simpl in *. split.
  - rewrite Hrows, <- list_fmap_compose. apply list_fmap_ext. intros i row _. apply Hid.
  - intros Hnone row Hrow Hin. rewrite Hrows in Hrow.
    apply list_elem_of_fmap in Hrow as (row0 & -> & _). rewrite Hid in Hin.
    destruct (elem_of_some_chunk 200 _ _ ltac:(lia) Hin) as (chunk & Hc & Hx).
    by apply (Hdone Hnone row0 chunk).
Qed.

(** X21. The effect of [MarkMissing].  A call never adds, removes or
    reorders rows and never changes an identifier.  When it returns without
    error, every row named by the media files given has the flag asked for.
    It returns an error only when the storage does; and given no media file
    it issues no statement at all. *)
Theorem MarkMissing_effect (fault : nat → option error) (now : nat → Time)
    (missing : bool) (mfs : list MediaFile) (db : DB) :
  let r := MarkMissing fault now missing mfs db in
  mfID <$> media_file (msDB r.1) = mfID <$> media_file db ∧
  (r.2 = None →
   ∀ row, row ∈ media_file (msDB r.1) → mfID row ∈ mfID <$> mfs → Missing row = missing) ∧
  ((∀ n, fault n = None) → r.2 = None) ∧
  (mfs = [] → r = (mkMarkState db 0 [], None)).
Proof.
  intros r. destruct (MarkMissing_effect_aux fault now missing mfs db) as [Hids Hset].
  split; [done |]. split; [done |]. split.
  - intros Hnf. by apply run_no_fault.
  - by intros ->.
Qed.

(** *** [MarkMissingByFolder] *)

Lemma markFolderRow_id missing now chunk mf :
  mfID (markFolderRow missing now chunk mf) = mfID mf ∧
  FolderID (markFolderRow missing now chunk mf) = FolderID mf.
Proof. unfold markFolderRow. by case_decide. Qed.

Lemma markFolderRow_settled missing now chunk mf :
  Missing mf = missing → markFolderRow missing now chunk mf = mf.
Proof.
  intros Hm. unfold markFolderRow. rewrite decide_False; [done |].
  intros [_ Hneg]. rewrite Hm in Hneg. by destruct missing.
Qed.

Lemma markFolderRow_sets missing now chunk mf :
  FolderID mf ∈ chunk → Missing (markFolderRow missing now chunk mf) = missing.
Proof.
  intros Hin. unfold markFolderRow. case_decide as Hsel; [done |].
  destruct (Missing mf) eqn:Hm, missing; try done; exfalso; apply Hsel; by split.
Qed.

Section folders.
Variable fault : nat → option error.
Variable now : nat → Time.
Variable missing : bool.

Local Abbreviation run := (runFolders fault now missing).

Lemma runFolders_rows (chunks : list (list string)) (st : markState) :
  ∃ g : MediaFile → MediaFile,
    media_file (msDB (run st chunks).1) = g <$> media_file (msDB st) ∧
    library (msDB (run st chunks).1) = library (msDB st) ∧
    (∀ row, mfID (g row) = mfID row ∧ FolderID (g row) = FolderID row) ∧
    (∀ row, Missing row = missing → g row = row) ∧
    (∀ row, g row = row ∨
            ∃ chunk t, chunk ∈ chunks ∧ selectedByFolder missing chunk row ∧
                       g row = setMissing missing t row) ∧
    ((run st chunks).2 = None →
     ∀ row chunk, chunk ∈ chunks → FolderID row ∈ chunk → Missing (g row) = missing).
Proof.
  unfold runFolders. revert st. induction chunks as [|c cs IH]; intros st.
  - exists id. simpl. rewrite list_fmap_id. repeat split; try done; [by left |].
    intros _ row chunk Hc. by apply elem_of_nil in Hc.
  - simpl. unfold markFolderChunk at 1 3 5.
    destruct (fault (msCount st)) as [err|] eqn:Hfault.
    + exists id. simpl. rewrite list_fmap_id. repeat split; try done. by left.
    + match goal with
      | |- context [slice.rangeChunks _ ?s cs] => destruct (IH s)
          as (g & Hrows & Hlib & Hid & Hfix & Hstep & Hdone)
      end.
      simpl in *. exists (g ∘ markFolderRow missing (now (msCount st)) c).
      split; [by rewrite Hrows, list_fmap_compose |]. split; [done |].
      split.
      { intros row. simpl. destruct (Hid (markFolderRow missing (now (msCount st)) c row))
          as [-> ->]. apply markFolderRow_id. }
      split; [intros row Hm; simpl; by rewrite markFolderRow_settled, Hfix |].
      split.
      * intros row. simpl. unfold markFolderRow at 1 2. case_decide as Hsel.
        -- right. exists c, (now (msCount st)). split; [left |]. split; [done |].
           by apply Hfix.
        -- destruct (Hstep row) as [Heq | (chunk & t & Hc & Hs & Heq)]; [by left |].
           right. exists chunk, t. split; [by right | done].
      * intros Hnone row chunk Hc Hin. simpl.
        apply elem_of_cons in Hc as [->|Hc].
        -- rewrite Hfix; by apply markFolderRow_sets.
        -- apply (Hdone Hnone _ chunk Hc).
           by rewrite (proj2 (markFolderRow_id missing (now (msCount st)) c row)).
Qed.

Lemma runFolders_no_fault (chunks : list (list string)) (st : markState) :
  (∀ n, fault n = None) → (run st chunks).2 = None.
Proof.
  intros Hnf. unfold runFolders. revert st.
  induction chunks as [|c cs IH]; intros st; [done |].
  simpl. unfold markFolderChunk at 1. rewrite Hnf. apply IH.
Qed.

End folders.

(** X22. Marking by folder.  [MarkMissingByFolder] changes only rows that
    lie in one of the folders given and whose flag differs, setting their
    flag and their [updated_at] and nothing else.  It returns an error only
    when the storage does, a folder without rows being no error.  When it
    returns without error every row of the folders has the flag asked for,
    and a second call with the same arguments leaves the database as it
    is. *)
Theorem MarkMissingByFolder_effect (fault1 fault2 : nat → option error)
    (now1 now2 : nat → Time) (missing : bool) (folderIDs : list string) (db : DB) :
  let once := MarkMissingByFolder fault1 now1 missing folderIDs db in
  let twice := MarkMissingByFolder fault2 now2 missing folderIDs (msDB once.1) in
  (∃ g, media_file (msDB once.1) = g <$> media_file db ∧
        library (msDB once.1) = library db ∧
        ∀ row, g row = row ∨
               (FolderID row ∈ folderIDs ∧ Missing row = negb missing ∧
                ∃ t, g row = setMissing missing t row)) ∧
  ((∀ n, fault1 n = None) → once.2 = None) ∧
  (once.2 = None →
   (∀ row, row ∈ media_file (msDB once.1) → FolderID row ∈ folderIDs →
           Missing row = missing) ∧
   msDB twice.1 = msDB once.1).
Proof.
  intros once twice. subst once twice. unfold MarkMissingByFolder, slice.RangeByChunks.
  set (chunks := slice.BreakUp 200 folderIDs).
  change (slice.rangeChunks (markFolderChunk fault1 now1 missing) (mkMarkState db 0 []) chunks)
    with (runFolders fault1 now1 missing (mkMarkState db 0 []) chunks).
  destruct (runFolders_rows fault1 now1 missing chunks (mkMarkState db 0 []))
    as (g & Hrows & Hlib & Hid & Hfix & Hstep & Hdone).
  simpl in *. split; [| split].
  - exists g. split; [done |]. split; [done |]. intros row.
    destruct (Hstep row) as [Heq | (chunk & t & Hc & [Hin Hm] & Heq)]; [by left |].
    right. split; [| eauto]. eapply elem_of_chunk; [| exact Hc | exact Hin]. lia.
  - intros Hnf. by apply runFolders_no_fault.
  - intros Hnone.
    assert (∀ row, row ∈ media_file (msDB (runFolders fault1 now1 missing
                                             (mkMarkState db 0 []) chunks).1) →
                   ∀ chunk, chunk ∈ chunks → FolderID row ∈ chunk →
                   Missing row = missing) as Hsettled.
    { intros row Hrow chunk Hc Hin. rewrite Hrows in Hrow.
      apply list_elem_of_fmap in Hrow as (row0 & -> & _).
      rewrite (proj2 (Hid row0)) in Hin. by apply (Hdone Hnone row0 chunk). }
    split.
    + intros row Hrow Hin.
      destruct (elem_of_some_chunk 200 _ _ ltac:(lia) Hin) as (chunk & Hc & Hx).
      by apply (Hsettled row Hrow chunk).
    + set (st1 := (runFolders fault1 now1 missing (mkMarkState db 0 []) chunks).1) in *.
      change (slice.rangeChunks (markFolderChunk fault2 now2 missing)
                (mkMarkState (msDB st1) 0 []) chunks)
        with (runFolders fault2 now2 missing (mkMarkState (msDB st1) 0 []) chunks).
      destruct (runFolders_rows fault2 now2 missing chunks (mkMarkState (msDB st1) 0 []))
        as (g2 & Hrows2 & Hlib2 & _ & _ & Hstep2 & _).
      simpl in *.
      assert (g2 <$> media_file (msDB st1) = media_file (msDB st1)) as Hsame.
      { rewrite <- (list_fmap_id (media_file (msDB st1))) at 2.
        apply list_fmap_ext. intros i row Hrow. simpl.
        destruct (Hstep2 row) as [Heq | (chunk & t & Hc & [Hin Hm] & Heq)]; [done |].
        exfalso. apply list_elem_of_lookup_2 in Hrow.
        rewrite (Hsettled row Hrow chunk Hc Hin) in Hm. by destruct missing. }
      rewrite Hsame in Hrows2.
      destruct (msDB (runFolders _ _ _ _ chunks).1), (msDB st1). simpl in *. congruence.
Qed.

(** *** [GetMissingAndMatching] and [Get] *)

Lemma filter_none {A} (P : A → Prop) `{∀ x, Decision (P x)} (l : list A) :
  (∀ x, x ∈ l → ¬ P x) → filter P l = [].
Proof.
  induction l as [|x l IH]; intros Hnone; [done |].
  rewrite filter_cons, decide_False by (apply Hnone; left).
  apply IH. intros y Hy. apply Hnone. by right.
Qed.

(** X23. What [GetMissingAndMatching] never does.  A storage error is
    returned as it is.  Otherwise, whatever the tables hold, no identifier
    comes back twice; every row returned is a row of the table that has a
    library row, shares its [pid] with a row missing in the library asked
    for, and is missing or was created after the last scan of its own
    library started; and when no row of that library is missing the result
    is empty. *)
Theorem GetMissingAndMatching_sound (db : DB) (libId : Z) :
  (∀ err, GetMissingAndMatching (Some err) db libId = Err err) ∧
  ∃ res, GetMissingAndMatching None db libId = Ok res ∧
    NoDup (mfID <$> res) ∧
    (∀ mf, mf ∈ res →
       mf ∈ media_file db ∧
       (∃ m, m ∈ media_file db ∧ Missing m = true ∧ LibraryID m = libId ∧
             PID m = PID mf) ∧
       ∃ l, l ∈ library db ∧ libID l = LibraryID mf ∧
            (Missing mf = true ∨ (LastScanStartedAt l < CreatedAt mf)%Z)) ∧
    ((∀ m, m ∈ media_file db → LibraryID m = libId → Missing m = false) → res = []).
Proof.
  split; [done |]. eexists. split; [done |]. split; [| split].
  - rewrite merge_sort_Permutation. apply groupByID_NoDup.
  - intros mf. rewrite merge_sort_Permutation. intros Hin.
    apply groupByID_sub in Hin as [Hin _].
    apply list_elem_of_fmap in Hin as ([m l] & -> & Hin).
    apply list_elem_of_filter in Hin as [[Hpid Hm] Hin].
    apply elem_of_joinLibrary in Hin as (Hmf & Hl & Heq). simpl in *.
    split; [done |]. split; [by apply elem_of_missingPIDs |].
    exists l. split; [done |]. split; [done |].
    destruct Hm as [? | Hafter]; [by left | right].
    unfold After in Hafter. by apply bool_decide_eq_true in Hafter.
  - intros Hnone.
    assert (missingPIDs db libId = []) as Hpids.
    { unfold missingPIDs. rewrite filter_none; [done |].
      intros m Hm [Hmiss Hlib]. rewrite (Hnone m Hm Hlib) in Hmiss. done. }
    rewrite Hpids.
    assert (filter (matches []) (joinLibrary db) = []) as ->.
    { apply filter_none. intros row _ [Hin _]. by apply elem_of_nil in Hin. }
    done.
Qed.

Lemma groupByID_same_id (seen : gset string) (rows : list MediaFile) (i : string) :
  i ∉ seen → Forall (λ mf, mfID mf = i) rows → groupByID seen rows = take 1 rows.
Proof.
  intros Hi Hall. destruct rows as [|mf rows]; [done |].
  apply Forall_cons in Hall as [<- Hall]. simpl. rewrite decide_False by done.
  rewrite take_0. f_equal.
  induction rows as [|mf' rows IH]; [done |].
  apply Forall_cons in Hall as [Heq Hall]. simpl.
  rewrite decide_True by (rewrite Heq; set_solver). by apply IH.
Qed.

(** [Get] returns the first row carrying the identifier. *)
Lemma Get_first (db : DB) (i : string) :
  Get None db i = match filter (λ mf, mfID mf = i) (media_file db) with
                  | [] => Err ErrNotFound
                  | mf :: _ => Ok mf
                  end.
Proof.
  unfold Get.
  rewrite (groupByID_same_id ∅ (filter (λ mf, mfID mf = i) (media_file db)) i).
  - by destruct (filter _ _).
  - set_solver.
  - apply Forall_forall. intros mf Hin. by apply list_elem_of_filter in Hin as [? _].
Qed.

Lemma Get_sound (db : DB) (i : string) (mf : MediaFile) :
  Get None db i = Ok mf → mf ∈ media_file db ∧ mfID mf = i.
Proof.
  rewrite Get_first.
  destruct (filter (λ mf, mfID mf = i) (media_file db)) as [|mf0 rest] eqn:Hf; [done |].
  intros [= <-].
  assert (mf0 ∈ filter (λ mf, mfID mf = i) (media_file db)) as Hmf by (rewrite Hf; left).
  by apply list_elem_of_filter in Hmf as [? ?].
Qed.

Lemma Get_not_found (db : DB) (i : string) :
  (∀ mf, mf ∈ media_file db → mfID mf ≠ i) ↔ Get None db i = Err ErrNotFound.
Proof.
  rewrite Get_first.
  destruct (filter (λ mf, mfID mf = i) (media_file db)) as [|mf0 rest] eqn:Hf.
  - split; [done |]. intros _ mf Hin Hid.
    assert (mf ∈ filter (λ mf, mfID mf = i) (media_file db)) as Hmf
      by (by apply list_elem_of_filter).
    rewrite Hf in Hmf. by apply elem_of_nil in Hmf.
  - split; [| done]. intros Hnone.
    assert (mf0 ∈ filter (λ mf, mfID mf = i) (media_file db)) as Hmf by (rewrite Hf; left).
    apply list_elem_of_filter in Hmf as [Hid Hin]. by destruct (Hnone mf0 Hin).
Qed.

Lemma Get_isErr (db : DB) (i : string) :
  isErr (Get None db i) = bool_decide (i ∉ mfID <$> media_file db).
Proof.
  destruct (Get None db i) as [row|e] eqn:Hget; simpl; symmetry.
  - apply bool_decide_eq_false_2. intros Hnin.
    destruct (Get_sound db i row Hget) as [Hin Hid]. apply Hnin.
    apply list_elem_of_fmap. by exists row.
  - apply bool_decide_eq_true_2. intros Hin.
    apply list_elem_of_fmap in Hin as (row & Hid & Hin).
    rewrite Get_first in Hget.
    destruct (filter (λ mf, mfID mf = i) (media_file db)) as [|mf0 rest] eqn:Hf; [| done].
    assert (row ∈ filter (λ mf, mfID mf = i) (media_file db)) as Hmf
      by (by apply list_elem_of_filter).
    rewrite Hf in Hmf. by apply elem_of_nil in Hmf.
Qed.

(** X24. [Get] by identifier.  A storage error is returned as it is; an
    identifier that no row carries gives [ErrNotFound]; a row that is
    returned is a row of the table with the identifier asked for; and with
    [media_file.id] a key, every row of the table is returned for its own
    identifier. *)
Theorem Get_cases (db : DB) (i : string) :
  (∀ err, Get (Some err) db i = Err err) ∧
  ((∀ mf, mf ∈ media_file db → mfID mf ≠ i) ↔ Get None db i = Err ErrNotFound) ∧
  (∀ mf, Get None db i = Ok mf → mf ∈ media_file db ∧ mfID mf = i) ∧
  (NoDup (mfID <$> media_file db) →
   ∀ mf, mf ∈ media_file db → mfID mf = i → Get None db i = Ok mf).
Proof.
  split; [done |]. split; [apply Get_not_found |]. split; [apply Get_sound |].
  intros Hkey mf Hin Hid.
  destruct (Get None db i) as [mf0|e] eqn:Hget.
  - destruct (Get_sound db i mf0 Hget) as [Hin0 Hid0]. f_equal.
    apply list_elem_of_lookup in Hin0 as [a Ha], Hin as [b Hb].
    assert (a = b) as ->; [| congruence].
    eapply NoDup_lookup; [exact Hkey | |]; rewrite list_lookup_fmap.
    + by rewrite Ha.
    + rewrite Hb. simpl. congruence.
  - pose proof (Get_isErr db i) as Herr. rewrite Hget in Herr. simpl in Herr.
    symmetry in Herr. apply bool_decide_eq_true in Herr. exfalso. apply Herr.
    apply list_elem_of_fmap. by exists mf.
Qed.

(** X25. Marking and reading back.  After a [MarkMissing] that returned
    without error, [Get] on the identifier of any of the media files given
    finds a row exactly when it did before, and the row it returns has the
    flag asked for. *)
Theorem MarkMissing_then_Get (fault : nat → option error) (now : nat → Time)
    (missing : bool) (mfs : list MediaFile) (db : DB) (mf : MediaFile) :
  let r := MarkMissing fault now missing mfs db in
  r.2 = None → mf ∈ mfs →
  (isErr (Get None (msDB r.1) (mfID mf)) = isErr (Get None db (mfID mf))) ∧
  (∀ row, Get None (msDB r.1) (mfID mf) = Ok row → Missing row = missing).
Proof.
  intros r Hnone Hmf.
  destruct (MarkMissing_effect_aux fault now missing mfs db) as (Hids & Hset).
  fold r in Hids, Hset. split.
  - by rewrite !Get_isErr, Hids.
  - intros row Hget. destruct (Get_sound _ _ _ Hget) as [Hin Hid].
    apply (Hset Hnone row Hin).
    rewrite Hid. apply list_elem_of_fmap. by exists mf.
Qed.

Lemma MarkMissing_then_Get_witness :
  let c := mkMediaFile "c" "q" 1 "f1" "x/c.mp3" "C" false 20%Z 20%Z in
  let r := MarkMissing (λ _, None) (λ _, 30%Z) true [c] examples.twoLibraries in
  ∃ row, Get None (msDB r.1) "c" = Ok row ∧ Missing row = true.
Proof.
  intros c r. eexists. split; [reflexivity |].
  refine (proj2 (MarkMissing_then_Get (λ _, None) (λ _, 30%Z) true [c]
                   examples.twoLibraries c _ _) _ _).
  - reflexivity.
  - left.
  - reflexivity.
Defined.

End repository_facts.

(** ** Display names *)
Module display_facts.
Import model reference reference2 metadata mapped display participations_facts
  participations_more metadata_facts metadata_more.

Lemma cmpOr_nonempty (values : list string) :
  cmpOr values ≠ "" ↔ ∃ v, v ∈ values ∧ v ≠ "".
Proof.
  induction values as [|v values IH]; simpl.
  - split; [done |]. by intros (v & ?%elem_of_nil & _).
  - case_decide as Hv.
    + rewrite IH. split.
      * intros (x & Hx & Hne). exists x. split; [by right | done].
      * intros (x & [->|Hx]%elem_of_cons & Hne); [done |]. by exists x.
    + split; [| done]. intros _. exists v. split; [left | done].
Qed.

Lemma head_addList_nil (l : list Artist) : head (addList [] l) = head l.
Proof.
  destruct l as [|a l]; [done |]. simpl.
  rewrite decide_False by (unfold artistIDs; simpl; set_solver).
  destruct (addList_extends [a] l) as (ext & Heq & _). simpl in Heq. by rewrite Heq.
Qed.

Section display.
Variable UnknownArtist : string.
Variable artistID : Metadata → string → string.
Variable Sanitize : string → string.

Local Abbreviation mapP := (mapParticipations UnknownArtist artistID Sanitize).
Local Abbreviation displayArtist := (mapDisplayArtist UnknownArtist).

(** The first track artist of the mapped participations is named after the
    first name value of the track-artist tags. *)
Lemma First_track_artist (md : Metadata) :
  Name (First RoleArtist (mapP md)) =
    default "" (head (nameValues UnknownArtist md TrackArtist TrackArtists)).
Proof.
  rewrite First_alt, lookup_total_alt, mapParticipations_artist, <- lookup_total_alt.
  rewrite Add_lookup_total, lookup_total_empty, head_addList_nil.
  pose proof (parseArtists_named UnknownArtist artistID Sanitize md TrackArtist
                TrackArtists TrackArtistSort TrackArtistsSort MusicBrainzArtistID)
    as (Hnames & Hne).
  rewrite <- Hnames.
  by destruct (parseArtists _ _ _ md TrackArtist _ _ _ _).
Qed.

Lemma First_album_artist_fallback (md : Metadata) :
  Strings md AlbumArtist = [] → Strings md AlbumArtists = [] →
  First RoleAlbumArtist (mapP md) = First RoleArtist (mapP md).
Proof.
  intros H1 Hs. rewrite !First_alt.
  by rewrite (mapParticipations_album_artists_aux UnknownArtist artistID Sanitize md H1 Hs).
Qed.

(** X26. The display artist.  It is never empty when the sentinel is not.
    A single value of the singular artist tag is displayed as it is; with
    several values, or none, the first value of the plural tag is displayed,
    and without a plural tag the first value of the singular one; values that
    are empty are passed over for the first artist of the participations, and
    then for the sentinel.  For a file without any artist tag, mapped by
    [mapParticipations], the sentinel is displayed. *)
Theorem mapDisplayArtist_cases (md : Metadata) (mf : mappedFile) :
  (UnknownArtist ≠ "" → displayArtist md mf ≠ "") ∧
  (∀ a, Strings md TrackArtist = [a] → a ≠ "" → displayArtist md mf = a) ∧
  (∀ c l, length (Strings md TrackArtist) ≠ 1 → Strings md TrackArtists = c :: l →
          c ≠ "" → displayArtist md mf = c) ∧
  (∀ a b k, Strings md TrackArtist = a :: b :: k → Strings md TrackArtists = [] →
            a ≠ "" → displayArtist md mf = a) ∧
  (Strings md TrackArtist = [] → Strings md TrackArtists = [] →
   mfParticipations mf = mapP md → displayArtist md mf = UnknownArtist).
Proof.
  unfold mapDisplayArtist. split; [| split; [| split; [| split]]].
  - intros Hne. apply cmpOr_nonempty. exists UnknownArtist. split; [| done].
    right. right. left.
  - intros a -> Ha. simpl. by rewrite decide_False.
  - intros c l Hlen -> Hc.
    destruct (Strings md TrackArtist) as [|a [|b k]]; simpl in *;
      [| done |]; by rewrite decide_False.
  - intros a b k -> -> Ha. simpl. by rewrite decide_False.
  - intros H1 Hs Hp. rewrite H1, Hs, Hp, First_track_artist. unfold nameValues.
    rewrite Hs, H1. simpl. by repeat case_decide.
Qed.

(** X27. The display album artist falls back on the track artist.  A
    single non-empty value of the album-artist tag is displayed as it is.
    For a file without album-artist tags, mapped by [mapParticipations], the
    name displayed is that of its first track artist: the first value of the
    plural artist tag, else of the singular one, else the sentinel; only when
    that name is empty is the artist field of the file displayed. *)
Theorem mapDisplayAlbumArtist_cases (md : Metadata) (mf : mappedFile) :
  (∀ a, Strings md AlbumArtist = [a] → a ≠ "" → mapDisplayAlbumArtist md mf = a) ∧
  (Strings md AlbumArtist = [] → Strings md AlbumArtists = [] →
   mfParticipations mf = mapP md →
   mapDisplayAlbumArtist md mf =
     cmpOr [default "" (head (nameValues UnknownArtist md TrackArtist TrackArtists));
            mfArtist mf]).
Proof.
  unfold mapDisplayAlbumArtist. split.
  - intros a -> Ha. simpl. by rewrite decide_False.
  - intros H1 Hs Hp. rewrite H1, Hs, Hp. simpl.
    by rewrite First_album_artist_fallback, First_track_artist.
Qed.

End display.

Lemma mapDisplayArtist_cases_witness :
  mapDisplayArtist "[Unknown Artist]" examples.untagged
    (mkMappedFile (mapParticipations "[Unknown Artist]" (λ _ nm, nm) id examples.untagged) "")
    = "[Unknown Artist]".
Proof.
  refine (proj2 (proj2 (proj2 (proj2 (mapDisplayArtist_cases "[Unknown Artist]"
            (λ _ nm, nm) id examples.untagged (mkMappedFile _ "")))))  _ _ _);
    reflexivity.
Defined.

Lemma mapDisplayAlbumArtist_cases_witness :
  mapDisplayAlbumArtist examples.untagged
    (mkMappedFile (mapParticipations "[Unknown Artist]" (λ _ nm, nm) id examples.untagged) "")
    = "[Unknown Artist]".
Proof.
  rewrite (proj2 (mapDisplayAlbumArtist_cases "[Unknown Artist]" (λ _ nm, nm) id
                    examples.untagged (mkMappedFile _ ""))); reflexivity.
Defined.

End display_facts.
